(** * yc_scraper: a Rocq model of the discovery-and-enrichment pipeline

    The development embeds [src/yc_scraper.py]:

    - [PyStr]      the Python string operations the scraper calls
                   ([split], [strip], [rstrip], [in], [join]);
    - [Dom]        the part of a rendered page the scraper queries
                   (elements, the CSS selectors it passes to [locator]);
    - [Extract]    the body of the [try] block of [scrape_company_details];
    - [Discovery]  [scroll_and_extract_links];
    - [Engine]     [scrape_company_details] and the batch loop of [main];
    - [Limiter]    the interleavings of a batch under [asyncio.Semaphore].

    The browser and the file system are parameters: a [render_client]
    says what each attempt on a URL meets, a [sink] what each write
    meets, and a function from scroll counts to pages what the directory
    shows. A [render_client] answers by URL and attempt number; the URLs
    of a run come out of a set, so no URL is asked about twice. Exceptions are modelled where the source handles them or lets
    them escape from the engine: [context.new_page()] before the [try],
    anything inside the [try], [to_csv]. The Playwright calls of the
    discovery phase, [page.close()] and [browser.close()] are taken to
    return. The events recorded for a call are those of the semaphore,
    of the pages and of the back-off [asyncio.sleep(3)]; the jitter
    sleep of line 58 and the other awaits inside the [try] leave no
    event. Cancellation of a task is not modelled.

    Characters are the 8-bit [ascii] of the Standard Library, read as the
    code points below 256. *)

From Stdlib Require Import Ascii String List Arith Lia Bool.
From stdpp Require Import base list strings gmap sets.

Local Open Scope nat_scope.

(* ===================================================================== *)
(** ** Python string operations                                          *)
(* ===================================================================== *)

Module PyStr.

(** [str.isspace] on one character: TAB..CR, FS..US, SPACE, NEL, NBSP. *)
Definition isspace (c : ascii) : bool :=
  let n := nat_of_ascii c in
  ((9 <=? n) && (n <=? 13)) || ((28 <=? n) && (n <=? 32))
  || (n =? 133) || (n =? 160).

(** [bool(s)]: a string is truthy when it is not empty. *)
Definition truthy (s : string) : bool :=
  match s with EmptyString => false | String _ _ => true end.

(** [s.lstrip()], [s.rstrip()] and [s.strip()], over the characters
    satisfying [p]. *)
Fixpoint lstrip_with (p : ascii -> bool) (s : string) : string :=
  match s with
  | EmptyString => EmptyString
  | String c s' => if p c then lstrip_with p s' else s
  end.

Fixpoint rstrip_with (p : ascii -> bool) (s : string) : string :=
  match s with
  | EmptyString => EmptyString
  | String c s' =>
      let r := rstrip_with p s' in
      if p c && negb (truthy r) then EmptyString else String c r
  end.

Definition strip (s : string) : string :=
  lstrip_with isspace (rstrip_with isspace s).

(** [c in chars] for a character. *)
Fixpoint char_in (c : ascii) (chars : string) : bool :=
  match chars with
  | EmptyString => false
  | String d chars' => Ascii.eqb c d || char_in c chars'
  end.

(** [s.rstrip(chars)]. *)
Definition rstrip (chars : string) (s : string) : string :=
  rstrip_with (fun c => char_in c chars) s.

(** [s.split(sep)[0]] for a one-character separator: the text before
    the first occurrence of [sep], the whole text when there is none. *)
Fixpoint split_head (sep : ascii) (s : string) : string :=
  match s with
  | EmptyString => EmptyString
  | String c s' =>
      if Ascii.eqb c sep then EmptyString else String c (split_head sep s')
  end.

(** [s.split()]: the maximal runs of non-whitespace characters. *)
Definition starts_word (s : string) : bool :=
  match s with
  | EmptyString => false
  | String c _ => negb (isspace c)
  end.

Fixpoint split (s : string) : list string :=
  match s with
  | EmptyString => []
  | String c s' =>
      if isspace c then split s'
      else if starts_word s' then
        match split s' with
        | w :: ws => String c w :: ws
        | [] => [String c EmptyString]
        end
      else String c EmptyString :: split s'
  end.

(** [t.startswith(w)]. *)
Fixpoint startswith (w t : string) : bool :=
  match w, t with
  | EmptyString, _ => true
  | String _ _, EmptyString => false
  | String a w', String b t' => Ascii.eqb a b && startswith w' t'
  end.

(** [w in t] on strings: [w] occurs in [t] as a contiguous substring. *)
Fixpoint contains (w t : string) : bool :=
  startswith w t
  || match t with
     | EmptyString => false
     | String _ t' => contains w t'
     end.

(** [x in l] on a list of strings. *)
Definition mem (x : string) (l : list string) : bool :=
  existsb (String.eqb x) l.

(** [sep.join(l)]. *)
Fixpoint join (sep : string) (l : list string) : string :=
  match l with
  | [] => EmptyString
  | [x] => x
  | x :: l' => x +:+ sep +:+ join sep l'
  end.

(** [sep] does not occur in [s]. *)
Definition free_of (sep : ascii) (s : string) : Prop := split_head sep s = s.

(** [if x not in acc: acc.append(x)]. *)
Definition append_unique (acc : list string) (x : string) : list string :=
  if mem x acc then acc else acc ++ [x].

End PyStr.

(* ===================================================================== *)
(** ** The rendered page, as far as the scraper queries it               *)
(* ===================================================================== *)

Module Dom.

(** One element of the rendered page, with what Playwright reports for
    it: [get_attribute("href")], [inner_text()], [is_visible()]. *)
Record element := Element {
  tag : string;
  classes : list string;
  href : option string;
  inner_text : string;
  is_visible : bool
}.

(** The elements of the page in document order. *)
Definition document := list element.

(** The CSS selectors that occur in the source. *)
Inductive selector :=
| Tag (t : string)                       (* h1, h3 *)
| TagClass (t c : string)                (* div.font-bold *)
| HrefPrefix (t pre : string)            (* a[href^="pre"] *)
| HrefContains (t sub : string)          (* a[href*="sub"] *)
| Either (s1 s2 : selector).             (* s1, s2 *)

Definition href_test (f : string -> bool) (e : element) : bool :=
  match href e with
  | Some h => f h
  | None => false
  end.

Fixpoint matches (sel : selector) (e : element) : bool :=
  match sel with
  | Tag t => String.eqb (tag e) t
  | TagClass t c => String.eqb (tag e) t && PyStr.mem c (classes e)
  | HrefPrefix t pre =>
      String.eqb (tag e) t && href_test (PyStr.startswith pre) e
  | HrefContains t sub =>
      String.eqb (tag e) t && href_test (PyStr.contains sub) e
  | Either s1 s2 => matches s1 e || matches s2 e
  end.

(** [page.locator(sel).all()]. *)
Definition locator (page : document) (sel : selector) : list element :=
  List.filter (matches sel) page.

(** [page.locator(sel).first]. *)
Definition first (page : document) (sel : selector) : option element :=
  head (locator page sel).

(** [loc.is_visible()] is [False] when the locator resolves to nothing. *)
Definition visible (loc : option element) : bool :=
  match loc with
  | Some e => is_visible e
  | None => false
  end.

End Dom.

(* ===================================================================== *)
(** ** Python results                                                    *)
(* ===================================================================== *)

(** A call either returns a value or raises an [Exception]. *)
Inductive py_result (A : Type) :=
| Returned (a : A)
| Raised.
Arguments Returned {A} a.
Arguments Raised {A}.

(** A row of the result set: a Python [dict] with string keys, kept as
    the list of its items in insertion order. *)
Definition record := list (string * string).

Definition keys (r : record) : list string := map fst r.

Fixpoint get (r : record) (k : string) : option string :=
  match r with
  | [] => None
  | (k', v) :: r' => if String.eqb k' k then Some v else get r' k
  end.

(** The columns of a successful row. *)
Definition success_keys : list string :=
  ["Company Name"; "Batch"; "Short Description";
   "Founder Name(s)"; "Founder LinkedIn URL(s)"].

(* ===================================================================== *)
(** ** The extraction rules: the [try] block after navigation            *)
(* ===================================================================== *)

Module Extract.
Import Dom.

Definition batch_selector : selector := HrefContains "a" "batch=".
Definition desc_selector : selector :=
  Either (TagClass "p" "whitespace-pre-line") (TagClass "div" "text-xl").
Definition linkedin_selector : selector := HrefContains "a" "linkedin.com/in/".
Definition name_selectors : list selector := [TagClass "div" "font-bold"; Tag "h3"].

Definition blacklist : list string :=
  ["Founders"; "Jobs"; "Blog"; "Team"; "Company"; "Launch"; "News"].

(** [link.split('?')[0].rstrip('/')] *)
Definition clean_link (link : string) : string :=
  PyStr.rstrip "/" (PyStr.split_head "?" link).

(** The two nested [if]s guarding [founder_names.append(text)], on the
    stripped text. *)
Definition name_filter (text : string) : bool :=
  let n := length (PyStr.split text) in
  ((0 <? n) && (n <=? 3))
  && negb (existsb (fun word => PyStr.contains word text) blacklist).

(** The filter as applied to a candidate: [text = inner_text().strip()]
    first. *)
Definition accepts (candidate : string) : bool :=
  name_filter (PyStr.strip candidate).

Definition batch_of (page : document) : string :=
  let batch_loc := first page batch_selector in
  if visible batch_loc then
    match batch_loc with Some e => inner_text e | None => "N/A" end
  else "N/A".

Definition desc_of (page : document) : string :=
  let desc_loc := first page desc_selector in
  if visible desc_loc then
    match desc_loc with Some e => inner_text e | None => "N/A" end
  else "N/A".

Definition founder_links_of (page : document) : list string :=
  fold_left
    (fun founder_links li =>
       match href li with
       | Some link =>
           if PyStr.truthy link
           then PyStr.append_unique founder_links (clean_link link)
           else founder_links
       | None => founder_links
       end)
    (locator page linkedin_selector) [].

Definition founder_names_of (page : document) : list string :=
  fold_left
    (fun founder_names sel =>
       fold_left
         (fun founder_names el =>
            let text := PyStr.strip (inner_text el) in
            if name_filter text
            then PyStr.append_unique founder_names text
            else founder_names)
         (locator page sel) founder_names)
    name_selectors [].

(** Lines 68-118: [h1] must resolve, otherwise [inner_text] times out
    and raises; every other rule has a default. *)
Definition extract (page : document) : py_result record :=
  match first page (Tag "h1") with
  | None => Raised
  | Some h =>
      let name := inner_text h in
      let batch := batch_of page in
      let desc := desc_of page in
      let founder_links := founder_links_of page in
      let founder_names := founder_names_of page in
      Returned
        [ ("Company Name", PyStr.strip name);
          ("Batch", PyStr.strip batch);
          ("Short Description", PyStr.strip desc);
          ("Founder Name(s)", PyStr.join ", " founder_names);
          ("Founder LinkedIn URL(s)", PyStr.join ", " founder_links) ]
  end.

End Extract.

(* ===================================================================== *)
(** ** Link discovery: [scroll_and_extract_links]                        *)
(* ===================================================================== *)

Module Discovery.
Import Dom.

Definition TARGET_URL : string := "https://www.ycombinator.com/companies".
Definition TARGET_COUNT : nat := 500.

Definition link_selector : selector := HrefPrefix "a" "/companies/".

(** [list(company_links)]: Python fixes no iteration order for a set, so
    the order is a parameter; all that is known of it is that it lists
    the members of the set, each once. *)
Record set_order := SetOrder {
  to_list : gset string -> list string;
  to_list_perm : forall s, to_list s ≡ₚ elements s
}.

(** The prefix of a profile URL, and the sets all of whose members
    start with it. *)
Definition profile_prefix : string := "https://www.ycombinator.com/companies/".

Definition under_prefix (company_links : gset string) : Prop :=
  forall u, u ∈ company_links -> PyStr.startswith profile_prefix u = true.

(** The [for link in links] loop of lines 27-31. *)
Definition add_links (links : list element) (company_links : gset string)
  : gset string :=
  fold_left
    (fun company_links link =>
       match href link with
       | Some h =>
           if PyStr.truthy h && PyStr.contains "/companies/" h
           then {[ "https://www.ycombinator.com" +:+ h ]} ∪ company_links
           else company_links
       | None => company_links
       end)
    links company_links.

(** The [while] loop of lines 24-39. [page n] is the directory page as
    rendered after [n] scrolls. [fuel] bounds the number of iterations;
    the loop itself stops at 150 scrolls, so 150 is always enough. *)
Fixpoint scroll_loop (page : nat -> document) (target_count : nat)
  (fuel scroll_attempts : nat) (company_links : gset string) : gset string :=
  match fuel with
  | 0 => company_links
  | S fuel' =>
      if (size company_links <? target_count) && (scroll_attempts <? 150)
      then
        let links := locator (page scroll_attempts) link_selector in
        let company_links := add_links links company_links in
        if target_count <=? size company_links then company_links
        else scroll_loop page target_count fuel' (S scroll_attempts) company_links
      else company_links
  end.

Definition scroll_and_extract_links (order : set_order)
  (page : nat -> document) (target_count : nat) : list string :=
  let company_links := scroll_loop page target_count 150 0 ∅ in
  take target_count (to_list order company_links).

End Discovery.

(* ===================================================================== *)
(** ** The fetch engine: [scrape_company_details] and [main]             *)
(* ===================================================================== *)

Module Engine.
Import Dom.

Definition CONCURRENCY_LIMIT : nat := 3.
Definition BATCH_SIZE : nat := 50.

(** What the [try] block of one attempt meets.
    - [Fault]: a call raises before extraction starts ([route], [goto]).
    - [Loaded page]: navigation succeeds and the rules run on [page]. *)
Inductive navigation :=
| Fault
| Loaded (page : document).

(** What one iteration of the retry loop meets.
    - [PageFault]: [context.new_page()] raises; that call stands before
      the [try], so the exception leaves the function.
    - [Opened n]: the page opens and the [try] block meets [n]. *)
Inductive outcome :=
| PageFault
| Opened (n : navigation).

(** The browser context: what attempt number [attempt] on [url] meets. *)
Definition render_client := string -> nat -> outcome.

(** What a task does, as seen from outside. *)
Inductive event :=
| Acquire                 (* entering [async with semaphore] *)
| NewPage                 (* [context.new_page()] returned a page *)
| Close                   (* [page.close()] *)
| Sleep (seconds : nat)   (* [asyncio.sleep(3)] before the retry *)
| Release.                (* leaving [async with semaphore] *)

Definition failure_record (url : string) : record :=
  [("Company Name", "Error"); ("URL", url)].

(** The body of the [try] block. *)
Definition try_body (n : navigation) : py_result record :=
  match n with
  | Fault => Raised
  | Loaded page => Extract.extract page
  end.

(** [range(n)] *)
Definition range (n : nat) : list nat := seq 0 n.

(** [for attempt in attempts: ...], lines 49-124. Running off the end of
    the loop is Python's implicit [return None]. *)
Fixpoint attempt_loop (context : render_client) (url : string)
  (attempts : list nat) : py_result (option record) * list event :=
  match attempts with
  | [] => (Returned None, [])
  | attempt :: rest =>
      match context url attempt with
      | PageFault => (Raised, [])
      | Opened n =>
          match try_body n with
          | Returned r => (Returned (Some r), [NewPage; Close])
          | Raised =>
              if attempt =? 1
              then (Returned (Some (failure_record url)), [NewPage; Close])
              else
                let '(res, tr) := attempt_loop context url rest in
                (res, [NewPage; Close; Sleep 3] ++ tr)
          end
      end
  end.

Definition scrape_company_details (context : render_client) (url : string)
  : py_result (option record) * list event :=
  let '(res, tr) := attempt_loop context url (range 2) in
  (res, [Acquire] ++ tr ++ [Release]).

(** [await asyncio.gather] over the tasks of a batch: the results in
    task order, or the exception of a task that raised. *)
Fixpoint gather {A} (tasks : list (py_result A)) : py_result (list A) :=
  match tasks with
  | [] => Returned []
  | Raised :: _ => Raised
  | Returned a :: tasks' =>
      match gather tasks' with
      | Returned l => Returned (a :: l)
      | Raised => Raised
      end
  end.

(** [[r for r in batch_data if r is not None]] *)
Definition not_none (batch_data : list (option record)) : list record :=
  omap id batch_data.

(** What a call of [to_csv] meets. *)
Inductive sink_outcome :=
| Written
| PermissionDenied        (* raises [PermissionError] *)
| SinkFault.              (* raises any other exception *)

Record sink := Sink {
  interim : nat -> sink_outcome;   (* the write after batch number [k] *)
  final : sink_outcome
}.

Inductive io_event :=
| ToCsv (path : string) (rows : list record) (o : sink_outcome)
| Print (msg : string).

Inductive run_status := Completed | Aborted.

Record run := Run {
  status : run_status;
  results : list record;
  log : list io_event
}.

Definition progress_csv : string := "yc_scraping_progress.csv".
Definition warning : string :=
  "[!] Permission Denied: Close Excel to allow progress saving!".

(** [range(start, stop, step)] for [step > 0]; [fuel] bounds its length. *)
Fixpoint range_from (fuel start stop step : nat) : list nat :=
  match fuel with
  | 0 => []
  | S fuel' =>
      if start <? stop then start :: range_from fuel' (start + step) stop step
      else []
  end.

Definition range3 (start stop step : nat) : list nat :=
  range_from (stop - start) start stop step.

(** The body of the batch loop, lines 148-161, iterated over the batch
    starts [i]. *)
Fixpoint batch_loop (context : render_client) (s : sink) (batch_size : nat)
  (urls : list string) (starts : list nat)
  (results : list record) (log : list io_event) : run :=
  match starts with
  | [] => Run Completed results log
  | i :: starts' =>
      let batch_urls := take batch_size (drop i urls) in
      let tasks := map (fun u => fst (scrape_company_details context u)) batch_urls in
      match gather tasks with
      | Raised => Run Aborted results log
      | Returned batch_data =>
          let results := results ++ not_none batch_data in
          match interim s (i / batch_size) with
          | Written =>
              batch_loop context s batch_size urls starts' results
                (log ++ [ToCsv progress_csv results Written])
          | PermissionDenied =>
              batch_loop context s batch_size urls starts' results
                (log ++ [ToCsv progress_csv results PermissionDenied; Print warning])
          | SinkFault =>
              Run Aborted results (log ++ [ToCsv progress_csv results SinkFault])
          end
      end
  end.

(** Phase 2 of [main], lines 147-161. [range] with a zero step raises
    [ValueError]. *)
Definition batches (context : render_client) (s : sink) (batch_size : nat)
  (urls : list string) : run :=
  if batch_size =? 0 then Run Aborted [] []
  else batch_loop context s batch_size urls
         (range3 0 (length urls) batch_size) [] [].

(** The final export, lines 166-168; [today] is
    [datetime.now().strftime] of the format [%Y%m%d]. Nothing catches an
    exception of this write. *)
Definition final_export (s : sink) (today : string) (r : run) : run :=
  match status r with
  | Aborted => r
  | Completed =>
      let final_filename := "yc_scraping_" +:+ today +:+ ".csv" in
      Run (match final s with Written => Completed | _ => Aborted end)
          (results r)
          (log r ++ [ToCsv final_filename (results r) (final s)])
  end.

Definition process (context : render_client) (s : sink) (batch_size : nat)
  (today : string) (urls : list string) : run :=
  final_export s today (batches context s batch_size urls).

Definition main (order : Discovery.set_order) (page : nat -> document)
  (context : render_client) (s : sink) (today : string) : run :=
  let urls := Discovery.scroll_and_extract_links order page Discovery.TARGET_COUNT in
  process context s BATCH_SIZE today urls.

(** *** Vocabulary for the statements *)

(** [context.new_page()] does not raise for [url]. *)
Definition page_opens (context : render_client) (url : string) : Prop :=
  forall attempt, attempt < 2 -> context url attempt <> PageFault.

(** The attempt fails inside the [try] block. *)
Definition attempt_fails (context : render_client) (url : string)
  (attempt : nat) : Prop :=
  exists n, context url attempt = Opened n /\ try_body n = Raised.

(** Nothing raises out of the batch loop: every page opens and the
    checkpoint file is at worst locked. *)
Definition no_fatal_fault (context : render_client) (s : sink)
  (urls : list string) : Prop :=
  (forall u, In u urls -> page_opens context u)
  /\ (forall k, interim s k <> SinkFault).

(** [r] is the one record that [url] gives rise to: the rules applied to
    a page served for it, or the error placeholder. *)
Definition yields (context : render_client) (url : string) (r : record) : Prop :=
  r = failure_record url
  \/ exists attempt page,
       attempt < 2
       /\ context url attempt = Opened (Loaded page)
       /\ Extract.extract page = Returned r.

(** The destinations and rows of the writes attempted, in order. *)
Definition writes (l : list io_event) : list (string * list record) :=
  omap (fun e => match e with
                 | ToCsv path rows _ => Some (path, rows)
                 | Print _ => None
                 end) l.



(** [ceil(n / b)] *)
Definition ceil_div (n b : nat) : nat := (n + b - 1) / b.

End Engine.

(* ===================================================================== *)
(** ** A batch under the semaphore                                       *)
(* ===================================================================== *)

Module Limiter.
Import Engine.

Definition event_eqb (a b : event) : bool :=
  match a, b with
  | Acquire, Acquire | NewPage, NewPage | Close, Close | Release, Release => true
  | Sleep n, Sleep m => n =? m
  | _, _ => false
  end.

Definition count (e : event) (tr : list event) : nat :=
  length (List.filter (event_eqb e) tr).

(** A task of the batch: the events its coroutine performs, in order,
    and how many of them it has performed so far. *)
Record task := Task {
  program : list event;
  pc : nat
}.

(** The event loop between two steps: the value of the semaphore and
    the tasks created for the batch. *)
Record state := State {
  permits : nat;
  tasks : list task
}.

Definition performed (t : task) : list event := take (pc t) (program t).

(** The task is inside [async with semaphore]. *)
Definition holding (t : task) : nat :=
  count Acquire (performed t) - count Release (performed t).

(** The task has a page open: it is in the middle of an attempt. *)
Definition attempting (t : task) : nat :=
  count NewPage (performed t) - count Close (performed t).

Definition sum_over (f : task -> nat) (ts : list task) : nat :=
  foldr (fun t n => f t + n) 0 ts.

Definition total (f : task -> nat) (s : state) : nat :=
  sum_over f (tasks s).

(** [asyncio.Semaphore]: [acquire] goes through only while the value is
    positive and takes one off; [release] adds one. *)
Definition semaphore (value : nat) (e : event) : option nat :=
  match e with
  | Acquire => match value with 0 => None | S v => Some v end
  | Release => Some (S value)
  | _ => Some value
  end.

(** The event loop lets task [i] perform its next event. *)
Definition exec (s : state) (i : nat) : option state :=
  match tasks s !! i with
  | None => None
  | Some t =>
      match program t !! pc t with
      | None => None
      | Some e =>
          match semaphore (permits s) e with
          | None => None
          | Some v => Some (State v (<[i := Task (program t) (S (pc t))]> (tasks s)))
          end
      end
  end.

Definition step (s s' : state) : Prop := exists i, exec s i = Some s'.

(** The batch as [main] starts it: [Semaphore(limit)] and one task per
    URL, none of which has run yet. *)
Definition start (limit : nat) (context : render_client) (urls : list string)
  : state :=
  State limit
    (map (fun u => Task (snd (scrape_company_details context u)) 0) urls).

Definition reachable (limit : nat) (context : render_client)
  (urls : list string) (s : state) : Prop :=
  rtc step (start limit context urls) s.

(** The event loop follows a schedule: the tasks to step, in order. *)
Fixpoint run (s : state) (schedule : list nat) : option state :=
  match schedule with
  | [] => Some s
  | i :: rest =>
      match exec s i with
      | Some s' => run s' rest
      | None => None
      end
  end.

(** The event sequences a call of [scrape_company_details] can perform. *)
Definition shapes : list (list event) :=
  [ [Acquire; Release];
    [Acquire; NewPage; Close; Release];
    [Acquire; NewPage; Close; Sleep 3; Release];
    [Acquire; NewPage; Close; Sleep 3; NewPage; Close; Release] ].

(** What holds of every state of a batch: the tasks still run the
    programs they were created with, none has run past its end, and
    the permits not in the semaphore are in the hands of tasks. *)
Definition invariant (limit : nat) (context : render_client)
  (urls : list string) (s : state) : Prop :=
  map program (tasks s)
  = map (fun u => snd (scrape_company_details context u)) urls
  /\ Forall (fun t => pc t <= length (program t)) (tasks s)
  /\ permits s + total holding s = limit.

(** A task holds the permit from its first event to before its last. *)
Definition inside (t : task) : nat :=
  if (0 <? pc t) && (pc t <? length (program t)) then 1 else 0.

End Limiter.

(* ===================================================================== *)
(** ** Further vocabulary                                                *)
(* ===================================================================== *)

Module Shown.
Import Dom Discovery.

(** The profile URL the loop builds from an [href]. *)
Definition profile_url (h : string) : string :=
  "https://www.ycombinator.com" +:+ h.

(** [u] is built from a profile link that the directory shows after
    some number of scrolls below the ceiling. *)
Definition shown (page : nat -> document) (u : string) : Prop :=
  exists n e h,
    n < 150
    /\ In e (locator (page n) link_selector)
    /\ href e = Some h
    /\ u = profile_url h.

(** The profile URLs on one rendering of the page. *)
Definition first_page_links (page : nat -> document) : gset string :=
  add_links (locator (page 0) link_selector) ∅.

End Shown.

Module Progress.
Import Engine Limiter.

(** The task has performed all its events. *)
Definition finished (t : task) : Prop := pc t = length (program t).

End Progress.

(* ===================================================================== *)
(** ** Sample inputs                                                     *)
(* ===================================================================== *)

Module Samples.
Import Dom Engine.

(** A profile with a heading and nothing else. *)
Definition bare_profile : document :=
  [Element "h1" [] None "Acme" true].

(** A browser context in which every navigation times out. *)
Definition unreachable : render_client := fun _ _ => Opened Fault.

(** A small profile page and a context that serves it to [a] at once
    and to [c] on the retry, and times out on everything else. *)
Definition acme_profile : document :=
  [Element "h1" [] None " Acme " true;
   Element "a" [] (Some "/companies?batch=W24") "W24" true;
   Element "div" ["text-xl"] None "We do things" true;
   Element "a" [] (Some "https://www.linkedin.com/in/jane/?x=1") "in" true;
   Element "div" ["font-bold"] None "Jane Doe" true;
   Element "h3" [] None "Founders" true].

Definition flaky : render_client :=
  fun url attempt =>
    if String.eqb url "a" then Opened (Loaded acme_profile)
    else if String.eqb url "c" then
      match attempt with 0 => Opened Fault | _ => Opened (Loaded acme_profile) end
    else Opened Fault.

(** As [flaky], but the browser dies before the retry on [c]. *)
Definition crashing : render_client :=
  fun url attempt =>
    if String.eqb url "c" then
      match attempt with 0 => Opened Fault | _ => PageFault end
    else flaky url attempt.

(** A context that serves the profile page at once, whatever the URL. *)
Definition serving : render_client := fun _ _ => Opened (Loaded acme_profile).

(** The order in which [elements] lists a set. *)
Definition listed : Discovery.set_order :=
  Discovery.SetOrder elements (fun s => reflexivity (elements s)).

(** A directory page that shows the same three profile links, and a
    link elsewhere, however often it is scrolled. *)
Definition directory : nat -> document :=
  fun _ =>
    [Element "a" [] (Some "/companies/acme") "Acme" true;
     Element "a" [] (Some "/about") "About" true;
     Element "a" [] (Some "/companies/bolt") "Bolt" true;
     Element "a" [] (Some "/companies/acme") "Acme" true;
     Element "a" [] (Some "/companies/core") "Core" true].

(** The same directory, gone blank from the 150th scroll on. *)
Definition closing : nat -> document :=
  fun n => if n <? 150 then directory n else [].

(** A sink that always writes, and one whose checkpoint file is locked
    throughout. *)
Definition writable : sink := Sink (fun _ => Written) Written.
Definition locked : sink := Sink (fun _ => PermissionDenied) Written.

(** A sink on which every checkpoint write fails for good. *)
Definition full_disk : sink := Sink (fun _ => SinkFault) Written.

End Samples.

(* ===================================================================== *)
(** * Properties                                                         *)
(* ===================================================================== *)

(** ** The models on sample inputs *)

Example split_demo :
  PyStr.split "  Jane   Doe " = ["Jane"; "Doe"].
Proof. reflexivity. Qed.

Example strip_demo : PyStr.strip "  Jane Doe  " = "Jane Doe".
Proof. reflexivity. Qed.

Example rstrip_demo : PyStr.rstrip "/" "a/b//" = "a/b".
Proof. reflexivity. Qed.

Example contains_demo :
  PyStr.contains "News" "Newsom" = true /\ PyStr.contains "Jobs" "Steve" = false.
Proof. split; reflexivity. Qed.

Example join_demo : PyStr.join ", " ["a"; "b"; "c"] = "a, b, c".
Proof. reflexivity. Qed.

(** ** Strings *)

Section PyStrFacts.
Import PyStr.

Lemma append_cons c s t : String c s +:+ t = String c (s +:+ t).
Proof. reflexivity. Qed.

Lemma append_empty_l t : EmptyString +:+ t = t.
Proof. reflexivity. Qed.

Lemma append_assoc s t u : (s +:+ t) +:+ u = s +:+ (t +:+ u).
Proof.
  induction s as [|c s IH]; [done|].
  by rewrite !append_cons, IH.
Qed.

Lemma prefix_append w r : startswith w (w +:+ r) = true.
Proof.
  induction w as [|c w IH]; [done|].
  rewrite append_cons. simpl. by rewrite Ascii.eqb_refl.
Qed.

Lemma prefix_inv w t : startswith w t = true -> exists r, t = w +:+ r.
Proof.
  revert t. induction w as [|c w IH]; intros t H.
  - by exists t.
  - destruct t as [|d t]; simpl in H; [done|].
    apply andb_true_iff in H as [->%Ascii.eqb_eq H].
    destruct (IH t H) as [r ->]. by exists r.
Qed.

Lemma prefix_weaken p w r :
  startswith p w = true -> startswith p (w +:+ r) = true.
Proof.
  intros [q ->]%prefix_inv. rewrite append_assoc. apply prefix_append.
Qed.

Lemma contains_prefix w t : startswith w t = true -> contains w t = true.
Proof. intros H. destruct t; simpl in *; rewrite H; done. Qed.

Lemma contains_cons w c t : contains w t = true -> contains w (String c t) = true.
Proof. intros H. simpl. rewrite H. apply orb_true_r. Qed.

(** [contains] finds every occurrence. *)
Lemma contains_occurrence w l r : contains w (l +:+ w +:+ r) = true.
Proof.
  induction l as [|c l IH].
  - rewrite append_empty_l. apply contains_prefix, prefix_append.
  - rewrite append_cons. apply contains_cons, IH.
Qed.

(** *** [split] *)

Lemma split_space c s : isspace c = true -> split (String c s) = split s.
Proof. intros H. simpl. by rewrite H. Qed.

(** A text that starts a word has a first token, and that token is a
    prefix of the text. *)
Lemma split_starts_word s :
  starts_word s = true ->
  exists w ws r, split s = w :: ws /\ s = w +:+ r.
Proof.
  induction s as [|c s IH]; [done|].
  simpl. intros Hc. apply negb_true_iff in Hc. rewrite Hc.
  destruct (starts_word s) eqn:Hs.
  - destruct (IH eq_refl) as (w & ws & r & -> & ->).
    exists (String c w), ws, r. by rewrite append_cons.
  - exists (String c EmptyString), (split s), s. done.
Qed.

(** Every token of [split] occurs in the text. *)
Lemma split_occurs s t :
  In t (split s) -> exists l r, s = l +:+ t +:+ r.
Proof.
  revert t. induction s as [|c s IH]; intros t; [done|].
  simpl. destruct (isspace c) eqn:Hc.
  - intros (l & r & ->)%IH. exists (String c l), r. by rewrite append_cons.
  - destruct (starts_word s) eqn:Hs.
    + destruct (split_starts_word s Hs) as (w & ws & r & Hw & Hr).
      rewrite Hw. intros [<-|Hin].
      * exists EmptyString, r. by rewrite append_empty_l, append_cons, <- Hr.
      * destruct (IH t) as (l & r' & ->); [rewrite Hw; by right|].
        exists (String c l), r'. by rewrite append_cons.
    + intros [<-|Hin].
      * by exists EmptyString, s.
      * destruct (IH t Hin) as (l & r' & ->).
        exists (String c l), r'. by rewrite append_cons.
Qed.

Lemma split_token_contained s t : In t (split s) -> contains t s = true.
Proof. intros (l & r & ->)%split_occurs. apply contains_occurrence. Qed.

(** *** [strip] does not change the tokens *)

Lemma split_lstrip s : split (lstrip_with isspace s) = split s.
Proof.
  induction s as [|c s IH]; [done|].
  simpl. destruct (isspace c) eqn:Hc; [exact IH|].
  simpl. by rewrite Hc.
Qed.

Lemma starts_word_rstrip s :
  starts_word (rstrip_with isspace s) = starts_word s.
Proof.
  destruct s as [|c s]; [done|]. simpl.
  destruct (isspace c) eqn:Hc; simpl.
  - destruct (truthy _); simpl; [by rewrite Hc | done].
  - by rewrite Hc.
Qed.

Lemma split_rstrip s : split (rstrip_with isspace s) = split s.
Proof.
  induction s as [|c s IH]; [done|].
  simpl. destruct (isspace c) eqn:Hc; simpl.
  - destruct (rstrip_with isspace s) eqn:Hr; simpl.
    + by rewrite <- IH.
    + by rewrite Hc, <- IH.
  - by rewrite Hc, starts_word_rstrip, IH.
Qed.

Lemma split_strip s : split (strip s) = split s.
Proof. unfold strip. by rewrite split_lstrip, split_rstrip. Qed.

(** *** [split_head] and [rstrip] *)

Lemma split_head_free sep s : free_of sep (split_head sep s).
Proof.
  unfold free_of. induction s as [|c s IH]; [done|].
  simpl. destruct (Ascii.eqb c sep) eqn:Hc; [done|].
  simpl. by rewrite Hc, IH.
Qed.

Lemma rstrip_with_free p sep s : free_of sep s -> free_of sep (rstrip_with p s).
Proof.
  unfold free_of. induction s as [|c s IH]; [done|].
  simpl. destruct (Ascii.eqb c sep) eqn:Hc; [done|].
  intros [= Hs]. destruct (p c && _); [done|].
  simpl. by rewrite Hc, IH.
Qed.

Lemma rstrip_with_idemp p s : rstrip_with p (rstrip_with p s) = rstrip_with p s.
Proof.
  induction s as [|c s IH]; [done|].
  simpl. destruct (p c) eqn:Hc; simpl.
  - destruct (rstrip_with p s) eqn:Hr; simpl; [done|].
    rewrite Hc. simpl in IH. rewrite IH. done.
  - by rewrite Hc, IH.
Qed.

End PyStrFacts.

(** ** LinkedIn URL clean-up *)

Example clean_link_demo :
  Extract.clean_link "https://www.linkedin.com/in/jane/?miniProfile=1"
  = "https://www.linkedin.com/in/jane".
Proof. reflexivity. Qed.

(** C8. Cleaning a LinkedIn URL (cut at the first question mark, then
    drop the trailing slashes) a second time changes nothing. *)
Theorem clean_link_idempotent (link : string) :
  Extract.clean_link (Extract.clean_link link) = Extract.clean_link link.
Proof.
  unfold Extract.clean_link, PyStr.rstrip.
  set (p := fun c => PyStr.char_in c "/").
  assert (Hfree : PyStr.free_of "?" (PyStr.rstrip_with p (PyStr.split_head "?" link)))
    by apply rstrip_with_free, split_head_free.
  rewrite Hfree. apply rstrip_with_idemp.
Qed.

(** ** The founder-name filter *)

Lemma existsb_false_In {A} (f : A -> bool) (l : list A) (x : A) :
  existsb f l = false -> In x l -> f x = false.
Proof.
  intros H Hin. destruct (f x) eqn:Hfx; [|done].
  assert (existsb f l = true) by (apply existsb_exists; eauto). congruence.
Qed.

Lemma name_filter_tokens (text : string) :
  Extract.name_filter text = true ->
  1 <= length (PyStr.split text) <= 3
  /\ forall token, In token (PyStr.split text) -> ~ In token Extract.blacklist.
Proof.
  unfold Extract.name_filter.
  intros [[Hlo%Nat.ltb_lt Hhi%Nat.leb_le]%andb_true_iff Hbl%negb_true_iff]%andb_true_iff.
  split; [lia|].
  intros token Htok Hin.
  pose proof (existsb_false_In _ _ _ Hbl Hin) as Hno. simpl in Hno.
  by rewrite (split_token_contained _ _ Htok) in Hno.
Qed.

(** C4. A candidate founder name is accepted only if it splits on
    whitespace into one to three words none of which is a blacklisted
    word; the three samples of the specification come out as stated. *)
Theorem founder_name_filter :
  (forall candidate : string,
      Extract.accepts candidate = true ->
      1 <= length (PyStr.split candidate) <= 3
      /\ forall token, In token (PyStr.split candidate) ->
                       ~ In token Extract.blacklist)
  /\ Extract.accepts "Jane Doe" = true
  /\ Extract.accepts "Founders" = false
  /\ Extract.accepts "A B C D" = false.
Proof.
  split; [|by vm_compute].
  intros candidate H. unfold Extract.accepts in H.
  apply name_filter_tokens in H. by rewrite split_strip in H.
Qed.

(** The filter is stricter than the token test: a blacklisted word
    inside a longer token rejects the name as well. *)
Example substring_rejected :
  Extract.accepts "Gavin Newsom" = false
  /\ PyStr.split "Gavin Newsom" = ["Gavin"; "Newsom"].
Proof. by vm_compute. Qed.

(** ** The extraction rules *)

Section ExtractFacts.
Import Dom Extract.

Lemma strip_sentinel : PyStr.strip "N/A" = "N/A".
Proof. reflexivity. Qed.

(** [first] resolves to something visible only if some match is. *)
Lemma first_not_visible page sel :
  (forall e, In e (locator page sel) -> is_visible e = false) ->
  visible (first page sel) = false.
Proof.
  unfold first. destruct (locator page sel) as [|e l]; [done|].
  intros H. apply H. by left.
Qed.

Lemma batch_of_absent page :
  (forall e, In e (locator page batch_selector) -> is_visible e = false) ->
  batch_of page = "N/A".
Proof. intros H. unfold batch_of. by rewrite first_not_visible. Qed.

Lemma desc_of_absent page :
  (forall e, In e (locator page desc_selector) -> is_visible e = false) ->
  desc_of page = "N/A".
Proof. intros H. unfold desc_of. by rewrite first_not_visible. Qed.

(** [extract] raises exactly when no [h1] resolves. *)
Lemma extract_raises page :
  extract page = Raised <-> first page (Tag "h1") = None.
Proof. unfold extract. by destruct (first page (Tag "h1")). Qed.

Lemma extract_keys page r : extract page = Returned r -> keys r = success_keys.
Proof.
  unfold extract. destruct (first page (Tag "h1")); [|done].
  by intros [= <-].
Qed.

End ExtractFacts.

(** C7, as the code has it. On a page whose heading resolves, extraction
    returns a record with the five fields; the batch is the placeholder
    N/A when no batch link is visible, the description is N/A when no
    description element is visible, and the name and founder fields are
    what their own rules give. *)
Theorem absent_field_sentinel (page : Dom.document) (h : Dom.element) :
  Dom.first page (Dom.Tag "h1") = Some h ->
  exists r,
    Extract.extract page = Returned r
    /\ keys r = success_keys
    /\ ((forall e, In e (Dom.locator page Extract.batch_selector) ->
                   Dom.is_visible e = false) ->
        get r "Batch" = Some "N/A")
    /\ ((forall e, In e (Dom.locator page Extract.desc_selector) ->
                   Dom.is_visible e = false) ->
        get r "Short Description" = Some "N/A")
    /\ get r "Company Name" = Some (PyStr.strip (Dom.inner_text h))
    /\ get r "Founder Name(s)"
       = Some (PyStr.join ", " (Extract.founder_names_of page))
    /\ get r "Founder LinkedIn URL(s)"
       = Some (PyStr.join ", " (Extract.founder_links_of page)).
Proof.
  intros Hh. unfold Extract.extract. rewrite Hh.
  eexists. split; [reflexivity|].
  split; [reflexivity|].
  split; [intros H; simpl; by rewrite (batch_of_absent _ H)|].
  split; [intros H; simpl; by rewrite (desc_of_absent _ H)|].
  done.
Qed.

Lemma absent_field_sentinel_witness :
  Dom.first Samples.bare_profile (Dom.Tag "h1")
  = Some (Dom.Element "h1" [] None "Acme" true)
  /\ exists r,
       Extract.extract Samples.bare_profile = Returned r
       /\ get r "Batch" = Some "N/A"
       /\ get r "Short Description" = Some "N/A".
Proof.
  split; [reflexivity|].
  destruct (absent_field_sentinel Samples.bare_profile
              (Dom.Element "h1" [] None "Acme" true) eq_refl)
    as (r & Hr & _ & Hb & Hd & _).
  exists r. split; [exact Hr|]. split.
  - apply Hb. intros e He. vm_compute in He. destruct He.
  - apply Hd. intros e He. vm_compute in He. destruct He.
Defined.

(** C7, as the specification words it, fails: on a profile with a
    heading and no batch link the Batch field is not the text
    "not available". *)
Lemma sentinel_not_spelled_out :
  Dom.locator Samples.bare_profile Extract.batch_selector = []
  /\ exists r,
       Extract.extract Samples.bare_profile = Returned r
       /\ get r "Batch" = Some "N/A"
       /\ get r "Batch" <> Some "not available".
Proof.
  split; [reflexivity|].
  eexists. split; [reflexivity|]. split; [reflexivity|]. discriminate.
Qed.

(** ** One URL: [scrape_company_details] *)

Section ScrapeFacts.
Import Engine.
Variable context : render_client.

(** The five ways through the retry loop. *)
Lemma scrape_cases url :
  match context url 0 with
  | PageFault =>
      scrape_company_details context url = (Raised, [Acquire; Release])
  | Opened n0 =>
      match try_body n0 with
      | Returned r =>
          scrape_company_details context url
          = (Returned (Some r), [Acquire; NewPage; Close; Release])
      | Raised =>
          match context url 1 with
          | PageFault =>
              scrape_company_details context url
              = (Raised, [Acquire; NewPage; Close; Sleep 3; Release])
          | Opened n1 =>
              scrape_company_details context url
              = (Returned (Some match try_body n1 with
                                | Returned r => r
                                | Raised => failure_record url
                                end),
                 [Acquire; NewPage; Close; Sleep 3; NewPage; Close; Release])
          end
      end
  end.
Proof.
  unfold scrape_company_details, range. simpl.
  destruct (context url 0) as [|n0]; [done|].
  destruct (try_body n0); [done|].
  destruct (context url 1) as [|n1]; [done|].
  by destruct (try_body n1).
Qed.

(** The loop never runs off its end: [None] is not returned. *)
Lemma scrape_not_none url :
  fst (scrape_company_details context url) <> Returned None.
Proof.
  pose proof (scrape_cases url) as H.
  destruct (context url 0) as [|n0]; [by rewrite H|].
  destruct (try_body n0); [by rewrite H|].
  destruct (context url 1) as [|n1]; by rewrite H.
Qed.

Lemma try_body_loaded n r :
  try_body n = Returned r ->
  exists page, n = Loaded page /\ Extract.extract page = Returned r.
Proof. destruct n as [|page]; [done|]. intros H. by exists page. Qed.

(** What is returned is the record of the URL. *)
Lemma scrape_yields url o :
  fst (scrape_company_details context url) = Returned o ->
  exists r, o = Some r /\ yields context url r.
Proof.
  pose proof (scrape_cases url) as H.
  destruct (context url 0) as [|n0] eqn:H0; [by rewrite H|].
  destruct (try_body n0) as [r0|] eqn:Hb0.
  - rewrite H. intros [= <-]. exists r0. split; [done|]. right.
    destruct (try_body_loaded _ _ Hb0) as (page & -> & Hp).
    exists 0, page. split; [lia|done].
  - destruct (context url 1) as [|n1] eqn:H1; [by rewrite H|].
    rewrite H. intros [= <-]. eexists. split; [done|].
    destruct (try_body n1) as [r1|] eqn:Hb1; [|by left].
    right. destruct (try_body_loaded _ _ Hb1) as (page & -> & Hp).
    exists 1, page. split; [lia|done].
Qed.

(** Only a page that does not open makes the call raise. *)
Lemma scrape_returns url :
  page_opens context url ->
  exists r, fst (scrape_company_details context url) = Returned (Some r)
            /\ yields context url r.
Proof.
  intros Hopen.
  destruct (fst (scrape_company_details context url)) as [o|] eqn:Hres.
  - destruct (scrape_yields url o Hres) as (r & -> & Hy). by exists r.
  - exfalso. pose proof (scrape_cases url) as H.
    destruct (context url 0) as [|n0] eqn:H0; [by apply (Hopen 0); [lia|]|].
    destruct (try_body n0); [by rewrite H in Hres|].
    destruct (context url 1) as [|n1] eqn:H1; [by apply (Hopen 1); [lia|]|].
    by rewrite H in Hres.
Qed.

(** The URL enters the result only through the placeholder: a second
    URL that is served the same pages gets the same extracted record. *)
Lemma scrape_same_pages url url' r :
  (forall attempt, context url' attempt = context url attempt) ->
  fst (scrape_company_details context url) = Returned (Some r) ->
  r <> failure_record url ->
  fst (scrape_company_details context url') = Returned (Some r).
Proof.
  intros Hsame Hr Hne.
  pose proof (scrape_cases url) as H. pose proof (scrape_cases url') as H'.
  rewrite !Hsame in H'.
  destruct (context url 0) as [|n0]; [by rewrite H in Hr|].
  destruct (try_body n0); [by rewrite H in Hr; rewrite H'|].
  destruct (context url 1) as [|n1]; [by rewrite H in Hr|].
  rewrite H in Hr. rewrite H'. simpl in *.
  destruct (try_body n1); [done|]. by injection Hr as <-.
Qed.

End ScrapeFacts.

(** C2. When the first two attempts on a URL both fail inside the [try]
    block, the call opens exactly two pages, closes each, sleeps the
    fixed three seconds between them, and returns (it does not raise)
    the one record with Company Name "Error" and the URL. *)
Theorem two_attempts_then_failure_record
  (context : Engine.render_client) (url : string) :
  (forall attempt, attempt < 2 -> Engine.attempt_fails context url attempt) ->
  Engine.scrape_company_details context url
  = (Returned (Some [("Company Name", "Error"); ("URL", url)]),
     [Engine.Acquire;
      Engine.NewPage; Engine.Close;
      Engine.Sleep 3;
      Engine.NewPage; Engine.Close;
      Engine.Release])
  /\ Limiter.count Engine.NewPage
       (snd (Engine.scrape_company_details context url)) = 2.
Proof.
  intros Hfail.
  destruct (Hfail 0) as (n0 & H0 & Hb0); [lia|].
  destruct (Hfail 1) as (n1 & H1 & Hb1); [lia|].
  pose proof (scrape_cases context url) as H.
  rewrite H0, Hb0, H1, Hb1 in H. by rewrite H.
Qed.

Lemma two_attempts_then_failure_record_witness :
  (forall attempt, attempt < 2 ->
     Engine.attempt_fails Samples.unreachable "https://www.ycombinator.com/companies/acme" attempt)
  /\ fst (Engine.scrape_company_details Samples.unreachable
            "https://www.ycombinator.com/companies/acme")
     = Returned (Some [("Company Name", "Error");
                       ("URL", "https://www.ycombinator.com/companies/acme")]).
Proof.
  assert (H : forall attempt, attempt < 2 ->
     Engine.attempt_fails Samples.unreachable "https://www.ycombinator.com/companies/acme" attempt).
  { intros attempt _. exists Engine.Fault. split; reflexivity. }
  split; [exact H|].
  destruct (two_attempts_then_failure_record _ _ H) as [-> _]. reflexivity.
Defined.

(** C10. A record returned by [scrape_company_details] is of one of
    two shapes. Either it is what the rules extract from a page served
    for the URL: it has the five data columns and no URL column, and
    any other URL served the same pages gets the very same record. Or
    it is the placeholder, with the columns Company Name (holding
    "Error") and URL (holding the URL) and no other. *)
Theorem record_shapes
  (context : Engine.render_client) (url : string) (r : record) :
  fst (Engine.scrape_company_details context url) = Returned (Some r) ->
  (keys r = success_keys
   /\ get r "URL" = None
   /\ (exists attempt page,
         context url attempt = Engine.Opened (Engine.Loaded page)
         /\ Extract.extract page = Returned r)
   /\ (forall url',
         (forall attempt, context url' attempt = context url attempt) ->
         fst (Engine.scrape_company_details context url') = Returned (Some r)))
  \/ (r = [("Company Name", "Error"); ("URL", url)]
      /\ keys r = ["Company Name"; "URL"]
      /\ get r "Company Name" = Some "Error"
      /\ get r "URL" = Some url).
Proof.
  intros Hr.
  destruct (scrape_yields _ _ _ Hr)
    as (r' & [= <-] & [->|(attempt & page & _ & Hc & Hx)]).
  - right. done.
  - left. pose proof (extract_keys _ _ Hx) as Hk. split; [done|].
    assert (Hurl : get r "URL" = None).
    { destruct r as [|[k1 v1] [|[k2 v2] [|[k3 v3] [|[k4 v4] [|[k5 v5] [|]]]]]];
        try discriminate Hk.
      injection Hk as -> -> -> -> ->. reflexivity. }
    split; [exact Hurl|]. split; [by exists attempt, page|].
    intros url' Hsame. apply (scrape_same_pages context url url' r Hsame Hr).
    intros ->. discriminate Hk.
Qed.

Lemma record_shapes_witness :
  fst (Engine.scrape_company_details Samples.unreachable "u")
  = Returned (Some [("Company Name", "Error"); ("URL", "u")])
  /\ get [("Company Name", "Error"); ("URL", "u")] "URL" = Some "u".
Proof.
  split; [reflexivity|].
  destruct (record_shapes Samples.unreachable "u" _ eq_refl)
    as [(Hk & _)|(_ & _ & _ & Hu)]; [discriminate Hk | exact Hu].
Defined.

(** ** The batch loop *)

Section RangeFacts.
Import Engine.

Lemma ceil_div_0 b : 0 < b -> ceil_div 0 b = 0.
Proof. intros Hb. unfold ceil_div. apply Nat.div_small. lia. Qed.

Lemma ceil_div_step n b :
  0 < b -> 0 < n -> ceil_div n b = S (ceil_div (n - b) b).
Proof.
  intros Hb Hn. unfold ceil_div.
  destruct (le_lt_dec n b) as [Hle|Hlt].
  - replace (n - b) with 0 by lia.
    rewrite (Nat.div_small (0 + b - 1) b) by lia.
    replace (n + b - 1) with ((n - 1) + 1 * b) by lia.
    rewrite Nat.div_add by lia. rewrite Nat.div_small by lia. done.
  - replace (n + b - 1) with ((n - b + b - 1) + 1 * b) by lia.
    rewrite Nat.div_add by lia. lia.
Qed.

Lemma ceil_div_covers n b : 0 < b -> n <= ceil_div n b * b.
Proof.
  intros Hb. unfold ceil_div.
  pose proof (Nat.div_mod_eq (n + b - 1) b) as H.
  pose proof (Nat.mod_upper_bound (n + b - 1) b) as H'. nia.
Qed.

Lemma ceil_div_least n b k : 0 < b -> n <= k * b -> ceil_div n b <= k.
Proof.
  intros Hb Hk. unfold ceil_div.
  pose proof (Nat.div_mod_eq (n + b - 1) b) as H.
  pose proof (Nat.mod_upper_bound (n + b - 1) b) as H'. nia.
Qed.

(** [range(start, stop, step)] lists [start + k * step] for the
    [ceil((stop - start) / step)] first [k]; the fuel is enough. *)
Lemma range_from_spec step stop fuel start :
  0 < step -> stop - start <= fuel ->
  range_from fuel start stop step
  = map (fun k => start + k * step) (seq 0 (ceil_div (stop - start) step)).
Proof.
  intros Hstep. revert start.
  induction fuel as [|fuel IH]; intros start Hfuel.
  - replace (stop - start) with 0 by lia. by rewrite ceil_div_0.
  - simpl. destruct (start <? stop) eqn:Hlt.
    + apply Nat.ltb_lt in Hlt.
      rewrite (ceil_div_step (stop - start) step) by lia.
      rewrite IH by lia. simpl. f_equal; [lia|].
      rewrite <- seq_shift, map_map.
      replace (stop - (start + step)) with (stop - start - step) by lia.
      apply map_ext. intros k. lia.
    + apply Nat.ltb_ge in Hlt.
      replace (stop - start) with 0 by lia. by rewrite ceil_div_0.
Qed.

Lemma range3_spec n b :
  0 < b -> range3 0 n b = map (fun k => k * b) (seq 0 (ceil_div n b)).
Proof.
  intros Hb. unfold range3. rewrite range_from_spec by lia.
  by rewrite Nat.sub_0_r.
Qed.

End RangeFacts.

Example range3_demo : Engine.range3 0 120 50 = [0; 50; 100].
Proof. reflexivity. Qed.

Section BatchFacts.
Import Engine.
Variable context : render_client.

Lemma In_take {A} (l : list A) n x : In x (take n l) -> In x l.
Proof.
  revert n. induction l as [|a l IH]; intros [|n]; simpl; try done.
  intros [->|H]; [by left|right; eauto].
Qed.

Lemma In_drop {A} (l : list A) n x : In x (drop n l) -> In x l.
Proof.
  revert n. induction l as [|a l IH]; intros [|n]; simpl; try done.
  intros H. right. eauto.
Qed.

Lemma not_none_Some (recs : list record) : not_none (map Some recs) = recs.
Proof.
  unfold not_none. induction recs as [|r recs IH]; [done|].
  change (r :: omap id (map Some recs) = r :: recs). by f_equal.
Qed.

(** What [gather] returns holds one record per URL of the batch, in the
    order of the URLs, and no [None]. *)
Lemma gather_returned batch_urls batch_data :
  gather (map (fun u => fst (scrape_company_details context u)) batch_urls)
  = Returned batch_data ->
  exists recs,
    batch_data = map Some recs /\ Forall2 (yields context) batch_urls recs.
Proof.
  revert batch_data. induction batch_urls as [|u l IH]; intros batch_data.
  - intros [= <-]. by exists [].
  - simpl. destruct (fst (scrape_company_details context u)) as [o|] eqn:Hu;
      [|done].
    destruct (gather _) as [data|]; [|done]. intros [= <-].
    destruct (scrape_yields context u o Hu) as (r & -> & Hy).
    destruct (IH data eq_refl) as (recs & -> & Hall).
    exists (r :: recs). split; [done|by constructor].
Qed.

(** It does return when every page of the batch opens. *)
Lemma gather_opens batch_urls :
  (forall u, In u batch_urls -> page_opens context u) ->
  gather (map (fun u => fst (scrape_company_details context u)) batch_urls)
  <> Raised.
Proof.
  induction batch_urls as [|u l IH]; intros Hopen; [done|].
  destruct (scrape_returns context u) as (r & Hr & _); [apply Hopen; by left|].
  simpl. rewrite Hr.
  destruct (gather _); [done|]. apply IH. intros; apply Hopen; by right.
Qed.

Lemma writes_app l1 l2 : writes (l1 ++ l2) = writes l1 ++ writes l2.
Proof. unfold writes. apply omap_app. Qed.

(** The rows of checkpoint [i] counted from batch [j]: what was there
    before, and the first [i] batches' worth of what came after. *)
Lemma checkpoints_shift batch_size (urls : list string) j m
      (rows recs new' : list record) :
  length recs = min batch_size (length (drop (j * batch_size) urls)) ->
  (progress_csv, rows ++ recs)
  :: map (fun i =>
            (progress_csv,
             take (length (rows ++ recs)
                   + min (i * batch_size)
                         (length (drop (S j * batch_size) urls)))
                  ((rows ++ recs) ++ new')))
         (seq 1 m)
  = map (fun i =>
           (progress_csv,
            take (length rows
                  + min (i * batch_size)
                        (length (drop (j * batch_size) urls)))
                 (rows ++ recs ++ new')))
        (seq 1 (S m)).
Proof.
  intros Hlen. cbn [seq map]. f_equal.
  - f_equal. rewrite Nat.mul_1_l, <- Hlen, <- length_app, (assoc_L (++)).
    by rewrite take_app_length.
  - rewrite <- (seq_shift m 1), map_map. apply map_ext. intros i.
    rewrite (assoc_L (++)). do 2 f_equal.
    rewrite length_app, Hlen, !length_drop. lia.
Qed.

(** The loop from batch number [j] on, for at most [m] more batches.
    It gathers some number [k] of them; the result set grows by one
    record for each URL of those batches, in order; after each of them
    the result set as it stands is written to the progress file; and
    if the loop is not aborted, [k] is [m]. *)
Lemma batch_loop_general s batch_size urls :
  0 < batch_size ->
  forall m j rows events,
    let r := batch_loop context s batch_size urls
               (map (fun k => k * batch_size) (seq j m)) rows events in
    exists k new newlog,
      k <= m
      /\ results r = rows ++ new
      /\ log r = events ++ newlog
      /\ Forall2 (yields context)
           (take (k * batch_size) (drop (j * batch_size) urls)) new
      /\ writes newlog
         = map (fun i =>
                  (progress_csv,
                   take (length rows
                         + min (i * batch_size)
                               (length (drop (j * batch_size) urls)))
                        (rows ++ new)))
               (seq 1 k)
      /\ (status r = Completed -> k = m).
Proof.
  intros Hb. induction m as [|m IH]; intros j rows events.
  - exists 0, [], []. simpl. rewrite !app_nil_r.
    repeat split; (lia || done || constructor).
  - cbn [seq map batch_loop].
    set (batch_urls := take batch_size (drop (j * batch_size) urls)).
    destruct (gather _) as [batch_data|] eqn:Hg.
    2:{ exists 0, [], []. simpl. rewrite !app_nil_r.
        repeat split; (lia || done || constructor). }
    destruct (gather_returned batch_urls batch_data Hg) as (recs & -> & Hrecs).
    cbv beta iota zeta. rewrite not_none_Some, Nat.div_mul by lia.
    pose proof (Forall2_length _ _ _ Hrecs) as Hlen.
    unfold batch_urls in Hlen. rewrite length_take in Hlen. symmetry in Hlen.
    assert (Hcons : forall k' new',
      Forall2 (yields context)
        (take (k' * batch_size) (drop (S j * batch_size) urls)) new' ->
      Forall2 (yields context)
        (take (S k' * batch_size) (drop (j * batch_size) urls)) (recs ++ new')).
    { intros k' new' Hnew.
      replace (S k' * batch_size) with (batch_size + k' * batch_size) by lia.
      rewrite <- take_take_drop, drop_drop.
      apply Forall2_app; [exact Hrecs|].
      by replace (j * batch_size + batch_size) with (S j * batch_size) by lia. }
    assert (Hnext : forall first,
      writes first = [(progress_csv, rows ++ recs)] ->
      let r := batch_loop context s batch_size urls
                 (map (fun k => k * batch_size) (seq (S j) m))
                 (rows ++ recs) (events ++ first) in
      exists k new newlog,
        k <= S m
        /\ results r = rows ++ new
        /\ log r = events ++ newlog
        /\ Forall2 (yields context)
             (take (k * batch_size) (drop (j * batch_size) urls)) new
        /\ writes newlog
           = map (fun i =>
                    (progress_csv,
                     take (length rows
                           + min (i * batch_size)
                                 (length (drop (j * batch_size) urls)))
                          (rows ++ new)))
                 (seq 1 k)
        /\ (status r = Completed -> k = S m)).
    { intros first Hfirst.
      destruct (IH (S j) (rows ++ recs) (events ++ first))
        as (k' & new' & newlog' & Hk & Hres & Hlog & Hnew & Hwrites & Hst).
      exists (S k'), (recs ++ new'), (first ++ newlog').
      rewrite Hres, Hlog, <- !(assoc_L (++)).
      split; [lia|]. split; [done|]. split; [done|].
      split; [by apply Hcons|].
      split; [|intros H; by rewrite (Hst H)].
      rewrite writes_app, Hfirst, Hwrites. by apply checkpoints_shift. }
    destruct (interim s j).
    + by apply Hnext.
    + by apply Hnext.
    + exists 1, recs, [ToCsv progress_csv (rows ++ recs) SinkFault].
      split; [lia|]. split; [done|]. split; [done|].
      split.
      { rewrite <- (app_nil_r recs). apply (Hcons 0 []). simpl. constructor. }
      split; [|done].
      pose proof (checkpoints_shift batch_size urls j 0 rows recs [] Hlen) as H.
      rewrite !app_nil_r in H. exact H.
Qed.

(** The loop is not aborted when every page opens and no checkpoint
    write fails with anything but a locked file. *)
Lemma batch_loop_completes s batch_size urls :
  no_fatal_fault context s urls ->
  forall starts rows events,
    status (batch_loop context s batch_size urls starts rows events)
    = Completed.
Proof.
  intros [Hopen Hsink].
  induction starts as [|i starts IH]; intros rows events; [done|].
  simpl. destruct (gather _) eqn:Hg.
  - destruct (interim s _) eqn:Hi; [apply IH | apply IH | by destruct (Hsink _ Hi)].
  - exfalso. revert Hg. apply gather_opens.
    intros u Hu. apply Hopen. eapply In_drop, In_take, Hu.
Qed.

End BatchFacts.

Section RunFacts.
Import Engine.
Variable context : render_client.

(** The whole batch loop. *)
Lemma batches_general s batch_size urls :
  let b := batches context s batch_size urls in
  exists k,
    k <= ceil_div (length urls) batch_size
    /\ Forall2 (yields context) (take (k * batch_size) urls) (results b)
    /\ writes (log b)
       = map (fun i =>
                (progress_csv,
                 take (min (i * batch_size) (length urls)) (results b)))
             (seq 1 k)
    /\ (status b = Completed ->
        k = ceil_div (length urls) batch_size /\ 0 < batch_size).
Proof.
  unfold batches. destruct (Nat.eqb_spec batch_size 0) as [->|Hb].
  - exists 0. simpl. repeat split; (lia || done || constructor).
  - assert (0 < batch_size) as Hpos by lia.
    rewrite range3_spec by done.
    destruct (batch_loop_general context s batch_size urls Hpos
                (ceil_div (length urls) batch_size) 0 [] [])
      as (k & new & newlog & Hk & Hres & Hlog & Hnew & Hwrites & Hst).
    exists k. rewrite Hres, Hlog. simpl in *.
    split; [done|]. split; [done|]. split; [done|].
    intros H. split; [by apply Hst|done].
Qed.

Lemma batches_complete s batch_size urls :
  0 < batch_size ->
  no_fatal_fault context s urls ->
  status (batches context s batch_size urls) = Completed.
Proof.
  intros Hb Hok. unfold batches.
  destruct (Nat.eqb_spec batch_size 0) as [|_]; [lia|].
  by apply batch_loop_completes.
Qed.

Lemma batches_rows s batch_size urls :
  status (batches context s batch_size urls) = Completed ->
  Forall2 (yields context) urls (results (batches context s batch_size urls)).
Proof.
  intros Hdone.
  destruct (batches_general s batch_size urls) as (k & _ & Hres & _ & Hst).
  destruct (Hst Hdone) as [-> Hb].
  by rewrite take_ge in Hres by (by apply ceil_div_covers).
Qed.

Lemma final_export_results s today b :
  results (final_export s today b) = results b.
Proof. unfold final_export. by destruct (status b). Qed.





End RunFacts.



Lemma flaky_no_fatal_fault s :
  (forall k, Engine.interim s k <> Engine.SinkFault) ->
  forall urls, Engine.no_fatal_fault Samples.flaky s urls.
Proof.
  intros Hs urls. split; [|exact Hs].
  intros u _ attempt _. unfold Samples.flaky.
  destruct (String.eqb u "a"); [done|].
  destruct (String.eqb u "c"); [|done]. by destruct attempt.
Qed.


(** C5, as the specification words it, fails: with 120 URLs, the batch
    size of the source and a first checkpoint write that fails for good,
    one write is attempted where [ceil(120 / 50)] is three. *)
Lemma sink_fault_cuts_checkpoints :
  let b := Engine.batches Samples.flaky Samples.full_disk Engine.BATCH_SIZE
             (replicate 120 "b") in
  Engine.status b = Engine.Aborted
  /\ length (Engine.writes (Engine.log b)) = 1
  /\ Engine.ceil_div (length (replicate 120 "b")) Engine.BATCH_SIZE = 3
  /\ length (Engine.writes (Engine.log b))
     <> Engine.ceil_div (length (replicate 120 "b")) Engine.BATCH_SIZE.
Proof. vm_compute. repeat split; (reflexivity || discriminate). Qed.

(** C5, as the code has it. The checkpoint writes of the batch loop all
    go to the fixed file [yc_scraping_progress.csv]; the [i]-th carries
    the first [min(i * B, N)] records of the result set, that is,
    everything gathered up to and including batch [i]. There are at
    most [ceil(N / B)] of them, and exactly that many in a run whose
    batch loop runs to its end, where the only other write is the final
    export; the loop does run to its end when every page opens and no
    checkpoint write fails with anything but a locked file. *)
Theorem checkpoint_cadence
  (context : Engine.render_client) (s : Engine.sink)
  (batch_size : nat) (today : string) (urls : list string) :
  let n := length urls in
  let b := Engine.batches context s batch_size urls in
  let r := Engine.process context s batch_size today urls in
  let w := Engine.writes (Engine.log b) in
  w = map (fun i =>
             ("yc_scraping_progress.csv",
              take (min (i * batch_size) n) (Engine.results r)))
          (seq 1 (length w))
  /\ (forall i, i <= length w ->
        length (take (min (i * batch_size) n) (Engine.results r))
        = min (i * batch_size) n)
  /\ length w <= Engine.ceil_div n batch_size
  /\ (Engine.status b = Engine.Completed ->
      length w = Engine.ceil_div n batch_size
      /\ Engine.log r
         = Engine.log b
           ++ [Engine.ToCsv ("yc_scraping_" +:+ today +:+ ".csv")
                 (Engine.results r) (Engine.final s)])
  /\ (0 < batch_size ->
      Engine.no_fatal_fault context s urls ->
      Engine.status b = Engine.Completed).
Proof.
  intros n b r w.
  assert (Hr : Engine.results r = Engine.results b)
    by apply final_export_results.
  destruct (batches_general context s batch_size urls)
    as (k & Hk & Hres & Hwr & Hst). fold b n in Hk, Hres, Hwr, Hst.
  assert (Hw : length w = k) by (unfold w; by rewrite Hwr, length_map, length_seq).
  pose proof (Forall2_length _ _ _ Hres) as Hlen.
  rewrite length_take in Hlen. fold n in Hlen.
  rewrite Hr, Hw.
  split; [exact Hwr|].
  split; [intros i Hi; rewrite length_take; nia|].
  split; [exact Hk|].
  split; [|apply batches_complete].
  intros Hdone. split; [by apply Hst|].
  subst r. unfold Engine.process, Engine.final_export. fold b.
  by rewrite Hdone.
Qed.

(** The sample of the specification: 120 URLs in batches of 50 give
    three checkpoints, of 50, 100 and 120 rows. *)
Lemma checkpoint_cadence_witness :
  0 < 50
  /\ Engine.no_fatal_fault Samples.flaky Samples.writable (replicate 120 "b")
  /\ map (fun w => (fst w, length (snd w)))
       (Engine.writes
          (Engine.log
             (Engine.batches Samples.flaky Samples.writable 50
                (replicate 120 "b"))))
     = [("yc_scraping_progress.csv", 50);
        ("yc_scraping_progress.csv", 100);
        ("yc_scraping_progress.csv", 120)].
Proof.
  assert (Hok : Engine.no_fatal_fault Samples.flaky Samples.writable
                  (replicate 120 "b")).
  { apply flaky_no_fatal_fault. intros k. discriminate. }
  split; [lia|]. split; [exact Hok|].
  destruct (checkpoint_cadence Samples.flaky Samples.writable 50 "20240101"
              (replicate 120 "b")) as (Hw & Hrows & _ & Hdone & Hruns).
  destruct (Hdone (Hruns ltac:(lia) Hok)) as [Hlen _].
  rewrite Hw, Hlen, map_map. cbn [fst snd].
  rewrite Hlen in Hrows.
  change (Engine.ceil_div (length (replicate 120 "b")) 50) with 3 in *.
  cbn [seq map]. rewrite !Hrows by lia. reflexivity.
Defined.



(** With the checkpoint file locked throughout, a run over three URLs
    in batches of two still completes with three rows, having tried two
    checkpoints and the export. *)
Example locked_run_demo :
  let r := Engine.process Samples.flaky Samples.locked 2 "20240101"
             ["a"; "b"; "c"] in
  Engine.status r = Engine.Completed
  /\ length (Engine.results r) = 3
  /\ map (fun w => (fst w, length (snd w))) (Engine.writes (Engine.log r))
     = [("yc_scraping_progress.csv", 2);
        ("yc_scraping_progress.csv", 3);
        ("yc_scraping_20240101.csv", 3)].
Proof. by vm_compute. Qed.

(** A page that does not open on the retry is fatal: the exception
    leaves [gather] and the run stops with what it had. *)
Example page_fault_aborts :
  let r := Engine.process Samples.crashing Samples.writable 2 "20240101"
             ["a"; "b"; "c"] in
  Engine.status r = Engine.Aborted
  /\ length (Engine.results r) = 2
  /\ map (fun w => (fst w, length (snd w))) (Engine.writes (Engine.log r))
     = [("yc_scraping_progress.csv", 2)].
Proof. by vm_compute. Qed.

(** ** Link discovery *)

Section DiscoveryFacts.
Import Dom Discovery.

Lemma startswith_append a w t :
  PyStr.startswith w t = true -> PyStr.startswith (a +:+ w) (a +:+ t) = true.
Proof.
  intros H. induction a as [|c a IH]; [done|].
  rewrite !append_cons. simpl. by rewrite Ascii.eqb_refl.
Qed.

(** What the link selector matches has an [href] under [/companies/]. *)
Lemma link_selector_href e :
  matches link_selector e = true ->
  exists h, href e = Some h /\ PyStr.startswith "/companies/" h = true.
Proof.
  unfold link_selector. simpl. unfold href_test.
  intros [_ H]%andb_true_iff. destruct (href e) as [h|]; [|done]. by exists h.
Qed.

Lemma add_links_under_prefix links company_links :
  Forall (fun e => matches link_selector e = true) links ->
  under_prefix company_links ->
  under_prefix (add_links links company_links).
Proof.
  unfold add_links. revert company_links.
  induction links as [|e links IH]; intros company_links Hm Hs; [done|].
  inversion_clear Hm as [|? ? He Hl]. simpl. apply IH; [done|].
  destruct (link_selector_href e He) as (h & -> & Hh).
  destruct (_ && _); [|done].
  intros u [->%elem_of_singleton|Hu]%elem_of_union; [|by apply Hs].
  by apply (startswith_append "https://www.ycombinator.com" "/companies/").
Qed.

Lemma locator_matches page sel :
  Forall (fun e => matches sel e = true) (locator page sel).
Proof.
  apply Forall_forall. intros e He. apply list_elem_of_In in He.
  unfold locator in He. by apply filter_In in He as [_ He].
Qed.

Lemma scroll_loop_under_prefix page target_count fuel scroll_attempts company_links :
  under_prefix company_links ->
  under_prefix (scroll_loop page target_count fuel scroll_attempts company_links).
Proof.
  revert scroll_attempts company_links.
  induction fuel as [|fuel IH]; intros scroll_attempts company_links H; [done|].
  simpl. destruct (_ && _); [|done].
  pose proof (add_links_under_prefix _ _ (locator_matches (page scroll_attempts) link_selector) H).
  destruct (_ <=? _); [done|]. by apply IH.
Qed.

(** The fuel of [scroll_loop] never runs out before the loop stops. *)
Lemma scroll_loop_fuel page target_count fuel scroll_attempts company_links :
  150 - scroll_attempts <= fuel ->
  scroll_loop page target_count fuel scroll_attempts company_links
  = scroll_loop page target_count (150 - scroll_attempts) scroll_attempts company_links.
Proof.
  revert scroll_attempts company_links.
  induction fuel as [|fuel IH]; intros scroll_attempts company_links Hf.
  - by replace (150 - scroll_attempts) with 0 by lia.
  - destruct (150 - scroll_attempts) as [|k] eqn:Hk.
    + simpl. replace (scroll_attempts <? 150) with false
        by (symmetry; apply Nat.ltb_ge; lia).
      by rewrite andb_false_r.
    + simpl. destruct (_ && _); [|done]. destruct (_ <=? _); [done|].
      rewrite IH by lia. by replace (150 - S scroll_attempts) with k by lia.
Qed.

End DiscoveryFacts.

(** C3. Whatever the page shows after each scroll and in whatever order
    Python lists the set, [scroll_and_extract_links] returns at most
    [target_count] URLs, no two of them equal, each starting with
    [https://www.ycombinator.com/companies/]. *)
Theorem discovered_links
  (order : Discovery.set_order) (page : nat -> Dom.document)
  (target_count : nat) :
  let urls := Discovery.scroll_and_extract_links order page target_count in
  length urls <= target_count
  /\ NoDup urls
  /\ Forall (fun u =>
               PyStr.startswith "https://www.ycombinator.com/companies/" u = true)
            urls.
Proof.
  intros urls. subst urls. unfold Discovery.scroll_and_extract_links.
  set (company_links := Discovery.scroll_loop page target_count 150 0 ∅).
  pose proof (Discovery.to_list_perm order company_links) as Hperm.
  split; [rewrite length_take; lia|]. split.
  - apply (sublist_NoDup _ (Discovery.to_list order company_links));
      [|apply sublist_take].
    rewrite Hperm. apply NoDup_elements.
  - apply Forall_take, Forall_forall. intros u Hu.
    rewrite Hperm in Hu. apply elem_of_elements in Hu.
    apply (scroll_loop_under_prefix page target_count 150 0 ∅); [|exact Hu].
    intros v Hv. by apply not_elem_of_empty in Hv.
Qed.

(** The scenario of the specification: three profile links on show and
    a target of 500 give the three URLs once the scroll ceiling is hit;
    a target of 2 cuts the list. *)
Example discovery_demo :
  Discovery.scroll_and_extract_links Samples.listed Samples.directory 500
  = ["https://www.ycombinator.com/companies/core";
     "https://www.ycombinator.com/companies/acme";
     "https://www.ycombinator.com/companies/bolt"]
  /\ length (Discovery.scroll_and_extract_links Samples.listed Samples.directory 2)
     = 2.
Proof. split; by vm_compute. Qed.

(** ** A batch under the semaphore *)

Section LimiterFacts.
Import Engine Limiter.

(** Every call performs one of the four event sequences. *)
Lemma scrape_shape context url :
  In (snd (scrape_company_details context url)) shapes.
Proof.
  pose proof (scrape_cases context url) as H. unfold shapes.
  destruct (context url 0) as [|n0]; [rewrite H; simpl; tauto|].
  destruct (try_body n0); [rewrite H; simpl; tauto|].
  destruct (context url 1) as [|n1]; rewrite H; simpl; tauto.
Qed.

(** Case analysis on a program of one of the shapes and a position in it. *)
Ltac each_position pc :=
  do 8 (destruct pc as [|pc]; [vm_compute; repeat split; (lia || done)|]);
  simpl in *; lia.

Ltac each_shape H :=
  unfold shapes in H; simpl in H;
  destruct H as [<-|[<-|[<-|[<-|[]]]]].

(** The permit is held exactly inside the program, and a page is open
    only while it is held. *)
Lemma shape_holding tr n :
  In tr shapes -> n <= length tr ->
  holding (Task tr n) = inside (Task tr n)
  /\ attempting (Task tr n) <= holding (Task tr n).
Proof. intros H Hn. each_shape H; each_position n. Qed.

(** A step of a task moves a permit between the semaphore and the task,
    or leaves both alone. *)
Lemma shape_step tr n e v v' :
  In tr shapes -> tr !! n = Some e -> semaphore v e = Some v' ->
  v' + holding (Task tr (S n)) = v + holding (Task tr n).
Proof.
  intros H He Hv.
  unfold holding, performed, count.
  each_shape H;
    repeat (destruct n as [|n];
            [simpl in He; injection He as <-; destruct v; simpl in Hv |- *;
             (discriminate Hv || (injection Hv as <-; lia))|]);
    simpl in He; destruct n; discriminate He.
Qed.

Lemma shape_ends tr :
  In tr shapes ->
  head tr = Some Acquire /\ last tr = Some Release
  /\ count Acquire tr = 1 /\ count Release tr = 1.
Proof. intros H. each_shape H; by vm_compute. Qed.

Lemma sum_over_insert f ts i t t' :
  ts !! i = Some t ->
  sum_over f (<[i:=t']> ts) + f t = sum_over f ts + f t'.
Proof.
  revert i. induction ts as [|a ts IH]; intros [|i] H; try done; simpl in *.
  - injection H as ->. lia.
  - specialize (IH i H). lia.
Qed.

Lemma sum_over_le f g ts :
  Forall (fun t => f t <= g t) ts -> sum_over f ts <= sum_over g ts.
Proof. induction 1; simpl; lia. Qed.

Lemma invariant_programs limit context urls s :
  invariant limit context urls s ->
  Forall (fun t => In (program t) shapes) (tasks s).
Proof.
  intros (Hprog & _ & _). revert urls Hprog.
  induction (tasks s) as [|t ts IH]; intros [|u urls] Hprog; try done.
  injection Hprog as Ht Hts. constructor; [|by eapply IH].
  rewrite Ht. apply scrape_shape.
Qed.

Lemma invariant_start limit context urls :
  invariant limit context urls (start limit context urls).
Proof.
  unfold invariant, start, total. simpl. rewrite map_map. simpl.
  split; [done|]. split.
  - apply Forall_forall. intros t (u & <- & _)%list_elem_of_In%in_map_iff.
    simpl. lia.
  - induction urls as [|u urls IH]; simpl in *; lia.
Qed.

Lemma invariant_step limit context urls s s' :
  invariant limit context urls s -> step s s' ->
  invariant limit context urls s'.
Proof.
  intros Hinv [i Hexec].
  pose proof (invariant_programs _ _ _ _ Hinv) as Hshapes.
  destruct Hinv as (Hprog & Hpc & Hsum).
  unfold exec in Hexec.
  destruct (tasks s !! i) as [t|] eqn:Ht; [|done].
  destruct (program t !! pc t) as [e|] eqn:He; [|done].
  destruct (semaphore (permits s) e) as [v|] eqn:Hv; [|done].
  injection Hexec as <-. unfold invariant, total. simpl.
  assert (Hin : In (program t) shapes).
  { eapply Forall_forall in Hshapes; [exact Hshapes|].
    by eapply list_elem_of_lookup_2. }
  split; [|split].
  - rewrite <- Hprog. clear -Ht. revert i Ht.
    induction (tasks s) as [|a ts IH]; intros [|i] H; try done; simpl in *.
    + by injection H as ->.
    + f_equal. by apply IH.
  - apply Forall_insert; [done|]. simpl.
    apply lookup_lt_Some in He. lia.
  - pose proof (sum_over_insert holding (tasks s) i t
                  (Task (program t) (S (pc t))) Ht) as Hins.
    pose proof (shape_step _ _ _ _ _ Hin He Hv) as Hst.
    destruct t as [tr n]. simpl in *. unfold total in Hsum. lia.
Qed.

Lemma invariant_reachable limit context urls s :
  reachable limit context urls s -> invariant limit context urls s.
Proof.
  unfold reachable. intros H.
  eapply (rtc_ind_r (fun s => invariant limit context urls s));
    [apply invariant_start | | exact H].
  intros y z _ Hstep IH. by eapply invariant_step.
Qed.

Lemma run_reachable limit context urls schedule s :
  run (start limit context urls) schedule = Some s ->
  reachable limit context urls s.
Proof.
  unfold reachable. generalize (start limit context urls). intros s0.
  revert s0. induction schedule as [|i rest IH]; intros s0 H; simpl in H.
  - injection H as ->. apply rtc_refl.
  - destruct (exec s0 i) as [s1|] eqn:Hexec; [|done].
    eapply rtc_l; [by exists i|]. by apply IH.
Qed.

End LimiterFacts.

(** C9. In every state a batch can reach under a semaphore of [limit]
    permits, at most [limit] tasks have a page open. Each task takes a
    permit with its first event and gives it back with its last, after
    the attempts and the back-off between them, and holds it at every
    point in between; the permits held and the permits left add up to
    [limit]. *)
Theorem concurrency_bound
  (limit : nat) (context : Engine.render_client) (urls : list string)
  (s : Limiter.state) :
  Limiter.reachable limit context urls s ->
  Limiter.total Limiter.attempting s <= limit
  /\ Limiter.permits s + Limiter.total Limiter.holding s = limit
  /\ Forall (fun t =>
               Limiter.holding t = Limiter.inside t
               /\ Limiter.attempting t <= Limiter.holding t
               /\ head (Limiter.program t) = Some Engine.Acquire
               /\ last (Limiter.program t) = Some Engine.Release
               /\ Limiter.count Engine.Acquire (Limiter.program t) = 1
               /\ Limiter.count Engine.Release (Limiter.program t) = 1)
            (Limiter.tasks s).
Proof.
  intros Hinv%invariant_reachable.
  pose proof (invariant_programs _ _ _ _ Hinv) as Hshapes.
  destruct Hinv as (_ & Hpc & Hsum).
  assert (Hall : Forall (fun t =>
               Limiter.holding t = Limiter.inside t
               /\ Limiter.attempting t <= Limiter.holding t
               /\ head (Limiter.program t) = Some Engine.Acquire
               /\ last (Limiter.program t) = Some Engine.Release
               /\ Limiter.count Engine.Acquire (Limiter.program t) = 1
               /\ Limiter.count Engine.Release (Limiter.program t) = 1)
            (Limiter.tasks s)).
  { apply Forall_forall. intros [tr n] Ht.
    eapply Forall_forall in Hshapes, Hpc; [|exact Ht..]. simpl in *.
    destruct (shape_holding tr n Hshapes Hpc) as [H1 H2].
    destruct (shape_ends tr Hshapes) as (H3 & H4 & H5 & H6). done. }
  split; [|split; [exact Hsum | exact Hall]].
  transitivity (Limiter.total Limiter.holding s); [|lia].
  apply sum_over_le. eapply Forall_impl; [exact Hall|]. by intros t (_ & H & _).
Qed.

(** Four URLs under three permits: once three tasks have a page open
    the fourth cannot enter. *)
Lemma concurrency_bound_witness :
  exists s,
    Limiter.run
      (Limiter.start Engine.CONCURRENCY_LIMIT Samples.flaky ["a"; "b"; "c"; "b"])
      [0; 1; 2; 0; 1; 2]
    = Some s
    /\ Limiter.reachable Engine.CONCURRENCY_LIMIT Samples.flaky
         ["a"; "b"; "c"; "b"] s
    /\ Limiter.total Limiter.attempting s <= Engine.CONCURRENCY_LIMIT
    /\ Limiter.total Limiter.attempting s = 3
    /\ Limiter.exec s 3 = None.
Proof.
  eexists. split; [by vm_compute|].
  assert (Hreach : forall s,
    Limiter.run
      (Limiter.start Engine.CONCURRENCY_LIMIT Samples.flaky ["a"; "b"; "c"; "b"])
      [0; 1; 2; 0; 1; 2]
    = Some s ->
    Limiter.reachable Engine.CONCURRENCY_LIMIT Samples.flaky
      ["a"; "b"; "c"; "b"] s)
    by (intros s; apply run_reachable).
  split; [apply Hreach; by vm_compute|].
  split.
  - refine (proj1 (concurrency_bound Engine.CONCURRENCY_LIMIT Samples.flaky
                     ["a"; "b"; "c"; "b"] _ _)).
    apply Hreach. by vm_compute.
  - split; by vm_compute.
Defined.

(** ** The whole program *)

(** [main], when nothing fatal happens, ends with one row for each URL
    that discovery returned, hence with at most [TARGET_COUNT] rows. *)
Corollary main_rows
  (order : Discovery.set_order) (page : nat -> Dom.document)
  (context : Engine.render_client) (s : Engine.sink) (today : string) :
  let urls :=
    Discovery.scroll_and_extract_links order page Discovery.TARGET_COUNT in
  Engine.no_fatal_fault context s urls ->
  let r := Engine.main order page context s today in
  Forall2 (Engine.yields context) urls (Engine.results r)
  /\ length (Engine.results r) <= Discovery.TARGET_COUNT.
Proof.
  intros urls Hok r. subst r. unfold Engine.main, Engine.process. fold urls.
  rewrite final_export_results.
  assert (Hrows : Forall2 (Engine.yields context) urls
            (Engine.results
               (Engine.batches context s Engine.BATCH_SIZE urls))).
  { apply batches_rows, batches_complete; [|exact Hok].
    unfold Engine.BATCH_SIZE. lia. }
  split; [exact Hrows|].
  rewrite <- (Forall2_length _ _ _ Hrows).
  subst urls. unfold Discovery.scroll_and_extract_links.
  rewrite length_take. lia.
Qed.

(** Three profile links on show, every profile served: three rows, none
    of them the placeholder. *)
Example end_to_end :
  let r := Engine.main Samples.listed Samples.directory Samples.serving
             Samples.writable "20240101" in
  Engine.status r = Engine.Completed
  /\ length (Engine.results r) = 3
  /\ map (fun row => get row "Company Name") (Engine.results r)
     = [Some "Acme"; Some "Acme"; Some "Acme"].
Proof. by vm_compute. Qed.

(* ===================================================================== *)
(** * Further properties                                                 *)
(* ===================================================================== *)

(** ** One URL *)

Section ScrapeMore.
Import Engine Limiter.
Variable context : render_client.

Ltac by_shape H :=
  unfold shapes in H; simpl in H;
  destruct H as [<-|[<-|[<-|[<-|[]]]]].

(** In every prefix of a call's events the pages closed never outnumber
    the pages opened, and at most one page is open. *)
Lemma shape_one_page tr n :
  In tr shapes ->
  count Close (take n tr) <= count NewPage (take n tr)
  /\ count NewPage (take n tr) <= S (count Close (take n tr)).
Proof.
  intros H. by_shape H;
    do 8 (destruct n as [|n]; [vm_compute; lia|]); vm_compute; lia.
Qed.

Lemma shape_totals tr :
  In tr shapes ->
  count NewPage tr <= 2
  /\ count Close tr = count NewPage tr
  /\ count (Sleep 3) tr <= 1
  /\ count (Sleep 3) tr <= count NewPage tr.
Proof. intros H. by_shape H; vm_compute; lia. Qed.

End ScrapeMore.

(** X1. A call of [scrape_company_details] that is not cancelled opens
    at most two pages, closes every page it opened (also when it ends
    by raising), never has two pages open at once, and takes the
    three-second back-off of line 124 at most once, and then only after
    an attempt. *)
Theorem pages_opened_are_closed
  (context : Engine.render_client) (url : string) :
  let tr := snd (Engine.scrape_company_details context url) in
  Limiter.count Engine.NewPage tr <= 2
  /\ Limiter.count Engine.Close tr = Limiter.count Engine.NewPage tr
  /\ Limiter.count (Engine.Sleep 3) tr <= 1
  /\ Limiter.count (Engine.Sleep 3) tr <= Limiter.count Engine.NewPage tr
  /\ forall n,
       Limiter.count Engine.Close (take n tr)
       <= Limiter.count Engine.NewPage (take n tr)
       /\ Limiter.count Engine.NewPage (take n tr)
          <= S (Limiter.count Engine.Close (take n tr)).
Proof.
  intros tr. pose proof (scrape_shape context url) as H. fold tr in H.
  destruct (shape_totals tr H) as (H1 & H2 & H3 & H4).
  repeat split; try done; by apply shape_one_page.
Qed.

(** X2. The record returned is the one extracted on the first attempt
    that succeeds: when the attempts before attempt [a] fail inside the
    [try] and attempt [a] extracts [r], the call returns [r] after
    [a + 1] page opens and [a] sleeps. *)
Theorem first_success_wins
  (context : Engine.render_client) (url : string)
  (a : nat) (n : Engine.navigation) (r : record) :
  a < 2 ->
  (forall a', a' < a -> Engine.attempt_fails context url a') ->
  context url a = Engine.Opened n ->
  Engine.try_body n = Returned r ->
  fst (Engine.scrape_company_details context url) = Returned (Some r)
  /\ Limiter.count Engine.NewPage
       (snd (Engine.scrape_company_details context url)) = S a
  /\ Limiter.count (Engine.Sleep 3)
       (snd (Engine.scrape_company_details context url)) = a.
Proof.
  intros Ha Hfail Hc Hb.
  pose proof (scrape_cases context url) as H.
  destruct a as [|[|a]]; [| |lia].
  - rewrite Hc, Hb in H. by rewrite H.
  - destruct (Hfail 0) as (n0 & H0 & Hb0); [lia|].
    rewrite H0, Hb0, Hc, Hb in H. by rewrite H.
Qed.

Lemma first_success_wins_witness :
  1 < 2
  /\ Engine.attempt_fails Samples.flaky "c" 0
  /\ Engine.try_body (Engine.Loaded Samples.acme_profile)
     = Extract.extract Samples.acme_profile
  /\ Limiter.count (Engine.Sleep 3)
       (snd (Engine.scrape_company_details Samples.flaky "c")) = 1.
Proof.
  assert (Hfail : forall a', a' < 1 -> Engine.attempt_fails Samples.flaky "c" a').
  { intros a' Ha'. assert (a' = 0) as -> by lia.
    exists Engine.Fault. split; reflexivity. }
  split; [lia|]. split; [apply Hfail; lia|]. split; [reflexivity|].
  destruct (Extract.extract Samples.acme_profile) as [r|] eqn:Hr;
    [|by vm_compute in Hr].
  destruct (first_success_wins Samples.flaky "c" 1
              (Engine.Loaded Samples.acme_profile) r) as (_ & _ & Hs);
    [lia | exact Hfail | reflexivity | exact Hr | exact Hs].
Defined.

(** X3. An exception of [context.new_page()] leaves the call: when it
    is raised on the first attempt, or on the second after the first
    failed inside the [try], the call raises instead of returning the
    placeholder, with every page it opened closed and the permit given
    back. *)
Theorem page_fault_leaves_the_call
  (context : Engine.render_client) (url : string) :
  context url 0 = Engine.PageFault
  \/ (Engine.attempt_fails context url 0 /\ context url 1 = Engine.PageFault) ->
  fst (Engine.scrape_company_details context url) = Raised
  /\ (snd (Engine.scrape_company_details context url)
      = [Engine.Acquire; Engine.Release]
      \/ snd (Engine.scrape_company_details context url)
         = [Engine.Acquire; Engine.NewPage; Engine.Close; Engine.Sleep 3;
            Engine.Release]).
Proof.
  pose proof (scrape_cases context url) as H.
  intros [H0|[(n0 & H0 & Hb0) H1]].
  - rewrite H0 in H. rewrite H. split; [done|by left].
  - rewrite H0, Hb0, H1 in H. rewrite H. split; [done|by right].
Qed.

Lemma page_fault_leaves_the_call_witness :
  (Engine.attempt_fails Samples.crashing "c" 0
   /\ Samples.crashing "c" 1 = Engine.PageFault)
  /\ fst (Engine.scrape_company_details Samples.crashing "c") = Raised.
Proof.
  assert (H : Engine.attempt_fails Samples.crashing "c" 0
              /\ Samples.crashing "c" 1 = Engine.PageFault).
  { split; [|reflexivity]. exists Engine.Fault. split; reflexivity. }
  split; [exact H|].
  exact (proj1 (page_fault_leaves_the_call Samples.crashing "c" (or_intror H))).
Defined.

(** X4. The error placeholder is returned exactly when both attempts
    fail inside the [try]; no page, whatever its content, makes the
    extraction rules produce it. *)
Theorem placeholder_iff_two_failures
  (context : Engine.render_client) (url : string) :
  fst (Engine.scrape_company_details context url)
  = Returned (Some (Engine.failure_record url))
  <-> Engine.attempt_fails context url 0 /\ Engine.attempt_fails context url 1.
Proof.
  assert (Hne : forall n, Engine.try_body n <> Returned (Engine.failure_record url)).
  { intros n Hn. destruct (try_body_loaded _ _ Hn) as (page & _ & Hx).
    by apply extract_keys in Hx. }
  pose proof (scrape_cases context url) as H. unfold Engine.attempt_fails.
  destruct (context url 0) as [|n0] eqn:H0.
  - rewrite H. split; [done|]. by intros [(n & ? & _) _].
  - destruct (Engine.try_body n0) as [r0|] eqn:Hb0.
    + rewrite H. split.
      * intros [= ->]. by destruct (Hne n0).
      * intros [(n & [= <-] & Hn) _]. congruence.
    + destruct (context url 1) as [|n1] eqn:H1; rewrite H.
      * split; [done|]. by intros [_ (n & ? & _)].
      * destruct (Engine.try_body n1) as [r1|] eqn:Hb1; simpl.
        -- split.
           ++ intros [= ->]. by destruct (Hne n1).
           ++ intros [_ (n & [= <-] & Hn)]. congruence.
        -- split; [|done]. intros _. split; [by exists n0|by exists n1].
Qed.

(** ** The extraction rules *)

Section UniqueFacts.
Import PyStr.

Lemma mem_In x l : mem x l = true <-> In x l.
Proof.
  unfold mem. rewrite existsb_exists. split.
  - intros (y & Hy & ->%String.eqb_eq). done.
  - intros H. exists x. by rewrite String.eqb_refl.
Qed.

Lemma append_unique_In acc x y :
  In y (append_unique acc x) <-> In y acc \/ y = x.
Proof.
  unfold append_unique. destruct (mem x acc) eqn:Hm.
  - apply mem_In in Hm. split; [by left|]. by intros [?| ->].
  - rewrite in_app_iff. simpl. intuition congruence.
Qed.

Lemma append_unique_NoDup acc x : NoDup acc -> NoDup (append_unique acc x).
Proof.
  intros H. unfold append_unique. destruct (mem x acc) eqn:Hm; [done|].
  apply NoDup_app. split; [done|]. split; [|apply NoDup_singleton].
  intros y Hy ->%list_elem_of_singleton.
  apply list_elem_of_In, mem_In in Hy. congruence.
Qed.

(** A loop that appends, to a list without repetitions, what [f] picks
    from each item unless it is there already. *)
Lemma unique_fold {A} (f : A -> option string)
      (g : list string -> A -> list string) :
  (forall acc a,
      g acc a = match f a with
                | Some x => append_unique acc x
                | None => acc
                end) ->
  forall l acc,
    (NoDup acc -> NoDup (fold_left g l acc))
    /\ forall y, In y (fold_left g l acc)
                 <-> In y acc \/ exists a, In a l /\ f a = Some y.
Proof.
  intros Hg. induction l as [|a l IH]; intros acc.
  - split; [done|]. intros y. simpl. split; [by left|].
    by intros [?|(a & [] & _)].
  - simpl. destruct (IH (g acc a)) as [IH1 IH2]. split.
    + intros H. apply IH1. rewrite Hg. destruct (f a); [|done].
      by apply append_unique_NoDup.
    + intros y. rewrite IH2, Hg. destruct (f a) as [x|] eqn:Hf.
      * rewrite append_unique_In. split.
        -- intros [[?| ->]|(b & Hb & Hfb)]; [by left| |].
           ++ right. exists a. split; [by left|done].
           ++ right. exists b. split; [by right|done].
        -- intros [?|(b & [<-|Hb] & Hfb)]; [by left; left| |].
           ++ left. right. congruence.
           ++ right. by exists b.
      * split.
        -- intros [?|(b & Hb & Hfb)]; [by left|].
           right. exists b. split; [by right|done].
        -- intros [?|(b & [<-|Hb] & Hfb)]; [by left|congruence|].
           right. by exists b.
Qed.

(** *** [strip] leaves nothing to strip *)

Lemma lstrip_with_idemp p s : lstrip_with p (lstrip_with p s) = lstrip_with p s.
Proof.
  induction s as [|c s IH]; [done|].
  simpl. destruct (p c) eqn:Hc; [done|]. simpl. by rewrite Hc.
Qed.

Lemma rstrip_lstrip p s :
  rstrip_with p s = s -> rstrip_with p (lstrip_with p s) = lstrip_with p s.
Proof.
  induction s as [|c s IH]; [done|].
  simpl. destruct (p c) eqn:Hc; simpl.
  - destruct (truthy (rstrip_with p s)); simpl; [|done].
    intros [= Hs]. by apply IH.
  - rewrite Hc. simpl. done.
Qed.

Lemma strip_idemp s : strip (strip s) = strip s.
Proof.
  unfold strip.
  rewrite (rstrip_lstrip isspace (rstrip_with isspace s))
    by apply rstrip_with_idemp.
  apply lstrip_with_idemp.
Qed.

Lemma startswith_truthy w t :
  truthy w = true -> contains w t = true -> truthy t = true.
Proof. destruct w, t; done. Qed.

End UniqueFacts.

(** X5. The LinkedIn URLs of a record are, without repetition, exactly
    the cleaned [href]s of the LinkedIn anchors of the page; none of
    them holds a question mark or ends in a slash. *)
Theorem founder_links_clean_and_unique (page : Dom.document) :
  NoDup (Extract.founder_links_of page)
  /\ (forall link,
        In link (Extract.founder_links_of page)
        <-> exists e h,
              In e (Dom.locator page Extract.linkedin_selector)
              /\ Dom.href e = Some h
              /\ link = Extract.clean_link h)
  /\ Forall (fun link => PyStr.free_of "?" link /\ PyStr.rstrip "/" link = link)
       (Extract.founder_links_of page).
Proof.
  pose (f := fun li : Dom.element =>
               match Dom.href li with
               | Some link =>
                   if PyStr.truthy link then Some (Extract.clean_link link)
                   else None
               | None => None
               end).
  pose (g := fun (founder_links : list string) (li : Dom.element) =>
               match Dom.href li with
               | Some link =>
                   if PyStr.truthy link
                   then PyStr.append_unique founder_links (Extract.clean_link link)
                   else founder_links
               | None => founder_links
               end).
  assert (Hg : forall acc li,
             g acc li = match f li with
                        | Some x => PyStr.append_unique acc x
                        | None => acc
                        end).
  { intros acc li. unfold f, g. destruct (Dom.href li) as [link|]; [|done].
    by destruct (PyStr.truthy link). }
  destruct (unique_fold f g Hg
              (Dom.locator page Extract.linkedin_selector) []) as [Hnd Hin].
  change (fold_left g (Dom.locator page Extract.linkedin_selector) [])
    with (Extract.founder_links_of page) in Hnd, Hin.
  assert (Hiff : forall link,
        In link (Extract.founder_links_of page)
        <-> exists e h,
              In e (Dom.locator page Extract.linkedin_selector)
              /\ Dom.href e = Some h
              /\ link = Extract.clean_link h).
  { intros link. rewrite Hin. split.
    - intros [[]|(e & He & Hf)]. unfold f in Hf.
      destruct (Dom.href e) as [h|] eqn:Hh; [|done].
      destruct (PyStr.truthy h); [|done]. injection Hf as <-. by exists e, h.
    - intros (e & h & He & Hh & ->). right. exists e. split; [done|].
      unfold f. rewrite Hh.
      assert (PyStr.truthy h = true) as ->; [|done].
      unfold Dom.locator in He. apply filter_In in He as [_ Hm].
      unfold Extract.linkedin_selector in Hm. simpl in Hm.
      unfold Dom.href_test in Hm. rewrite Hh in Hm.
      apply andb_true_iff in Hm as [_ Hm].
      by apply (startswith_truthy "linkedin.com/in/"). }
  split; [apply Hnd; constructor|]. split; [exact Hiff|].
  apply Forall_forall. intros link (e & h & _ & _ & ->)%list_elem_of_In%Hiff.
  unfold Extract.clean_link, PyStr.rstrip. split.
  - apply rstrip_with_free, split_head_free.
  - apply rstrip_with_idemp.
Qed.

(** X6. The founder names of a record are, without repetition, exactly
    the trimmed texts of the bold containers and sub-headings of the
    page that pass the filter; each is free of outer whitespace, has one
    to three words, and holds no blacklisted word even inside a longer
    word. *)
Theorem founder_names_filtered_and_unique (page : Dom.document) :
  NoDup (Extract.founder_names_of page)
  /\ (forall name,
        In name (Extract.founder_names_of page)
        <-> exists sel el,
              In sel Extract.name_selectors
              /\ In el (Dom.locator page sel)
              /\ name = PyStr.strip (Dom.inner_text el)
              /\ Extract.name_filter name = true)
  /\ Forall (fun name =>
               PyStr.strip name = name
               /\ 1 <= length (PyStr.split name) <= 3
               /\ forall word, In word Extract.blacklist ->
                               PyStr.contains word name = false)
       (Extract.founder_names_of page).
Proof.
  pose (f := fun el : Dom.element =>
               let text := PyStr.strip (Dom.inner_text el) in
               if Extract.name_filter text then Some text else None).
  pose (g := fun (founder_names : list string) (el : Dom.element) =>
               let text := PyStr.strip (Dom.inner_text el) in
               if Extract.name_filter text
               then PyStr.append_unique founder_names text
               else founder_names).
  assert (Hg : forall acc el,
             g acc el = match f el with
                        | Some x => PyStr.append_unique acc x
                        | None => acc
                        end).
  { intros acc el. unfold f, g. simpl. by destruct (Extract.name_filter _). }
  set (bold := Dom.locator page (Dom.TagClass "div" "font-bold")).
  set (h3 := Dom.locator page (Dom.Tag "h3")).
  assert (Hdef : Extract.founder_names_of page
                 = fold_left g h3 (fold_left g bold [])) by reflexivity.
  destruct (unique_fold f g Hg bold []) as [Hnd1 Hin1].
  destruct (unique_fold f g Hg h3 (fold_left g bold [])) as [Hnd2 Hin2].
  rewrite <- Hdef in Hnd2, Hin2.
  assert (Hf : forall el name,
             f el = Some name
             <-> name = PyStr.strip (Dom.inner_text el)
                 /\ Extract.name_filter name = true).
  { intros el name. unfold f. simpl.
    destruct (Extract.name_filter (PyStr.strip (Dom.inner_text el))) eqn:Hn.
    - split; [by intros [= <-]|by intros [-> _]].
    - split; [done|]. intros [-> H]. congruence. }
  assert (Hiff : forall name,
        In name (Extract.founder_names_of page)
        <-> exists sel el,
              In sel Extract.name_selectors
              /\ In el (Dom.locator page sel)
              /\ name = PyStr.strip (Dom.inner_text el)
              /\ Extract.name_filter name = true).
  { intros name. rewrite Hin2, Hin1. split.
    - intros [[[]|(el & Hel & Hfe)]|(el & Hel & Hfe)]; apply Hf in Hfe as [? ?].
      + exists (Dom.TagClass "div" "font-bold"), el. simpl. auto.
      + exists (Dom.Tag "h3"), el. simpl. auto.
    - intros (sel & el & Hsel & Hel & Hname & Hok).
      assert (f el = Some name) by (by apply Hf).
      destruct Hsel as [<-|[<-|[]]]; [left; right|right]; by exists el. }
  split; [apply Hnd2, Hnd1; constructor|]. split; [exact Hiff|].
  apply Forall_forall.
  intros name (sel & el & _ & _ & -> & Hok)%list_elem_of_In%Hiff.
  split; [apply strip_idemp|].
  set (name := PyStr.strip (Dom.inner_text el)) in *.
  unfold Extract.name_filter in Hok.
  apply andb_true_iff in Hok as [Hn Hbl].
  apply andb_true_iff in Hn as [Hlo%Nat.ltb_lt Hhi%Nat.leb_le].
  apply negb_true_iff in Hbl.
  split; [lia|]. intros word Hw.
  exact (existsb_false_In _ _ _ Hbl Hw).
Qed.

(** X7. The name, batch and description of an extracted record carry no
    leading or trailing whitespace: trimming them again changes
    nothing. *)
Theorem text_fields_are_trimmed
  (page : Dom.document) (r : record) (k v : string) :
  Extract.extract page = Returned r ->
  In k ["Company Name"; "Batch"; "Short Description"] ->
  get r k = Some v ->
  PyStr.strip v = v.
Proof.
  unfold Extract.extract.
  destruct (Dom.first page (Dom.Tag "h1")) as [h|]; [|done].
  intros [= <-] Hk Hv. simpl in Hk.
  destruct Hk as [<-|[<-|[<-|[]]]]; simpl in Hv; injection Hv as <-;
    apply strip_idemp.
Qed.

Lemma text_fields_are_trimmed_witness :
  Extract.extract Samples.acme_profile
  = Returned
      [("Company Name", "Acme"); ("Batch", "W24");
       ("Short Description", "We do things");
       ("Founder Name(s)", "Jane Doe");
       ("Founder LinkedIn URL(s)", "https://www.linkedin.com/in/jane")]
  /\ PyStr.strip "Acme" = "Acme".
Proof.
  split; [reflexivity|].
  eapply (text_fields_are_trimmed Samples.acme_profile _ "Company Name");
    [reflexivity | by left | reflexivity].
Defined.

(** ** Link discovery *)

Section DiscoveryMore.
Import Dom Discovery Shown.

Lemma link_selector_accepts e h :
  matches link_selector e = true ->
  href e = Some h ->
  PyStr.truthy h && PyStr.contains "/companies/" h = true.
Proof.
  intros Hm Hh. destruct (link_selector_href e Hm) as (h' & Hh' & Hpre).
  assert (h' = h) as -> by congruence.
  rewrite (contains_prefix _ _ Hpre), andb_true_r. by destruct h.
Qed.

(** What the [for] loop adds to the set. *)
Lemma add_links_elem page_links company_links u :
  Forall (fun e => matches link_selector e = true) page_links ->
  u ∈ add_links page_links company_links
  <-> u ∈ company_links
      \/ exists e h, In e page_links /\ href e = Some h /\ u = profile_url h.
Proof.
  unfold add_links. revert company_links.
  induction page_links as [|e l IH]; intros company_links Hm.
  - simpl. split; [by left|]. by intros [?|(e & h & [] & _)].
  - inversion_clear Hm as [|? ? He Hl]. simpl. rewrite (IH _ Hl). clear IH.
    destruct (href e) as [h|] eqn:Hh.
    + rewrite (link_selector_accepts e h He Hh).
      rewrite elem_of_union, elem_of_singleton. split.
      * intros [[->|?]|(e' & h' & He' & Hh' & ->)].
        -- right. exists e, h. split; [by left|done].
        -- by left.
        -- right. exists e', h'. split; [by right|done].
      * intros [?|(e' & h' & [<-|He'] & Hh' & ->)].
        -- left. by right.
        -- left. left. unfold profile_url. congruence.
        -- right. by exists e', h'.
    + split.
      * intros [?|(e' & h' & He' & Hh' & ->)]; [by left|].
        right. exists e', h'. split; [by right|done].
      * intros [?|(e' & h' & [<-|He'] & Hh' & ->)]; [by left|congruence|].
        right. by exists e', h'.
Qed.

Lemma add_links_grows page_links company_links :
  company_links ⊆ add_links page_links company_links.
Proof.
  unfold add_links. revert company_links.
  induction page_links as [|e l IH]; intros company_links; [done|].
  simpl. etrans; [|apply IH].
  destruct (href e); [|done]. destruct (_ && _); [|done]. set_solver.
Qed.

Lemma scroll_loop_grows page target_count fuel scroll_attempts company_links :
  company_links
  ⊆ scroll_loop page target_count fuel scroll_attempts company_links.
Proof.
  revert scroll_attempts company_links.
  induction fuel as [|fuel IH]; intros scroll_attempts company_links; [done|].
  simpl. destruct (_ && _); [|done].
  destruct (_ <=? _); [apply add_links_grows|].
  etrans; [apply add_links_grows|apply IH].
Qed.

(** The loop adds nothing but what some page below the ceiling shows. *)
Lemma scroll_loop_sound page target_count fuel scroll_attempts company_links u :
  u ∈ scroll_loop page target_count fuel scroll_attempts company_links ->
  u ∈ company_links \/ shown page u.
Proof.
  revert scroll_attempts company_links.
  induction fuel as [|fuel IH]; intros scroll_attempts company_links; [by left|].
  simpl. destruct (_ <? target_count); [|by left]. simpl.
  destruct (scroll_attempts <? 150) eqn:Hlt; [|by left].
  apply Nat.ltb_lt in Hlt.
  assert (Hadd : forall v,
    v ∈ add_links (locator (page scroll_attempts) link_selector) company_links ->
    v ∈ company_links \/ shown page v).
  { intros v [?|(e & h & He & Hh & ->)]%add_links_elem;
      [by left| |apply locator_matches].
    right. by exists scroll_attempts, e, h. }
  destruct (_ <=? _); [apply Hadd|].
  intros [?%Hadd|?]%IH; tauto.
Qed.

(** The loop looks at no page from the ceiling on. *)
Lemma scroll_loop_ext page page' target_count fuel scroll_attempts company_links :
  (forall n, n < 150 -> page n = page' n) ->
  scroll_loop page target_count fuel scroll_attempts company_links
  = scroll_loop page' target_count fuel scroll_attempts company_links.
Proof.
  intros Hsame. revert scroll_attempts company_links.
  induction fuel as [|fuel IH]; intros scroll_attempts company_links; [done|].
  simpl. destruct (_ <? target_count); [|done]. simpl.
  destruct (scroll_attempts <? 150) eqn:Hlt; [|done].
  apply Nat.ltb_lt in Hlt. rewrite <- (Hsame _ Hlt).
  destruct (_ <=? _); [done|]. apply IH.
Qed.

(** A loop that ends short of the target has taken in every page from
    its first to the ceiling. *)
Lemma scroll_loop_exhausts page target_count fuel scroll_attempts company_links :
  scroll_attempts + fuel = 150 ->
  size (scroll_loop page target_count fuel scroll_attempts company_links)
  < target_count ->
  forall n e h,
    scroll_attempts <= n < 150 ->
    In e (locator (page n) link_selector) ->
    href e = Some h ->
    profile_url h
    ∈ scroll_loop page target_count fuel scroll_attempts company_links.
Proof.
  revert scroll_attempts company_links.
  induction fuel as [|fuel IH]; intros scroll_attempts company_links Hf Hsize;
    [intros; lia|].
  simpl in *.
  destruct (size company_links <? target_count) eqn:Hc;
    [|apply Nat.ltb_ge in Hc; simpl in Hsize; lia].
  destruct (scroll_attempts <? 150) eqn:Hlt; [|apply Nat.ltb_ge in Hlt; lia].
  simpl in *.
  set (c' := add_links (locator (page scroll_attempts) link_selector)
               company_links) in *.
  destruct (target_count <=? size c') eqn:Hreach;
    [apply Nat.leb_le in Hreach; lia|].
  intros n e h Hn He Hh.
  destruct (decide (n = scroll_attempts)) as [->|Hne].
  - apply scroll_loop_grows. apply add_links_elem; [apply locator_matches|].
    right. by exists e, h.
  - apply (IH (S scroll_attempts) c' ltac:(lia) Hsize n e h); [lia|done|done].
Qed.

Lemma scroll_loop_step page target_count fuel scroll_attempts company_links :
  scroll_loop page target_count (S fuel) scroll_attempts company_links
  = if (size company_links <? target_count) && (scroll_attempts <? 150)
    then
      let company_links :=
        add_links (locator (page scroll_attempts) link_selector) company_links in
      if target_count <=? size company_links then company_links
      else scroll_loop page target_count fuel (S scroll_attempts) company_links
    else company_links.
Proof. reflexivity. Qed.

Lemma to_list_elem order (s : gset string) u :
  In u (to_list order s) <-> u ∈ s.
Proof.
  rewrite <- list_elem_of_In, (to_list_perm order s). apply elem_of_elements.
Qed.

Lemma to_list_length order (s : gset string) :
  length (to_list order s) = size s.
Proof. by rewrite (to_list_perm order s). Qed.

End DiscoveryMore.

(** X8. Discovery scrolls at most 150 times: what the directory would
    show after 150 scrolls or more has no influence on the result. *)
Theorem discovery_stops_at_ceiling
  (order : Discovery.set_order) (page page' : nat -> Dom.document)
  (target_count : nat) :
  (forall n, n < 150 -> page n = page' n) ->
  Discovery.scroll_and_extract_links order page target_count
  = Discovery.scroll_and_extract_links order page' target_count.
Proof.
  intros H. unfold Discovery.scroll_and_extract_links.
  by rewrite (scroll_loop_ext page page' _ _ _ _ H).
Qed.

Lemma discovery_stops_at_ceiling_witness :
  (forall n, n < 150 -> Samples.directory n = Samples.closing n)
  /\ Discovery.scroll_and_extract_links Samples.listed Samples.directory 500
     = Discovery.scroll_and_extract_links Samples.listed Samples.closing 500.
Proof.
  assert (H : forall n, n < 150 -> Samples.directory n = Samples.closing n).
  { intros n Hn. unfold Samples.closing.
    destruct (Nat.ltb_spec n 150); [done|lia]. }
  split; [exact H|]. by apply discovery_stops_at_ceiling.
Defined.

(** X9. Every URL that discovery returns was built from a profile link
    that the directory showed within the 150 scrolls; discovery invents
    none. *)
Theorem discovery_returns_only_shown
  (order : Discovery.set_order) (page : nat -> Dom.document)
  (target_count : nat) :
  Forall (Shown.shown page)
    (Discovery.scroll_and_extract_links order page target_count).
Proof.
  unfold Discovery.scroll_and_extract_links.
  apply Forall_take, Forall_forall. intros u Hu.
  apply list_elem_of_In, to_list_elem in Hu.
  apply scroll_loop_sound in Hu as [Hu|Hu]; [|done].
  by apply not_elem_of_empty in Hu.
Qed.

(** X10. When discovery returns fewer URLs than the target, it has
    scrolled to the ceiling and returns every profile link shown on the
    way: nothing that was shown is missing. *)
Theorem discovery_short_is_complete
  (order : Discovery.set_order) (page : nat -> Dom.document)
  (target_count : nat) (u : string) :
  length (Discovery.scroll_and_extract_links order page target_count)
  < target_count ->
  Shown.shown page u ->
  In u (Discovery.scroll_and_extract_links order page target_count).
Proof.
  unfold Discovery.scroll_and_extract_links.
  set (company_links := Discovery.scroll_loop page target_count 150 0 ∅).
  rewrite length_take, to_list_length. intros Hlen (n & e & h & Hn & He & Hh & ->).
  rewrite take_ge by (rewrite to_list_length; lia).
  apply to_list_elem.
  apply (scroll_loop_exhausts page target_count 150 0 ∅) with n e;
    [done | fold company_links; lia | lia | done | done].
Qed.

Lemma discovery_short_is_complete_witness :
  length (Discovery.scroll_and_extract_links Samples.listed Samples.directory 500)
  < 500
  /\ Shown.shown Samples.directory "https://www.ycombinator.com/companies/bolt"
  /\ In "https://www.ycombinator.com/companies/bolt"
       (Discovery.scroll_and_extract_links Samples.listed Samples.directory 500).
Proof.
  assert (Hlen : length (Discovery.scroll_and_extract_links Samples.listed
                           Samples.directory 500) < 500)
    by (vm_compute; lia).
  assert (Hshown : Shown.shown Samples.directory
                     "https://www.ycombinator.com/companies/bolt").
  { exists 0, (Dom.Element "a" [] (Some "/companies/bolt") "Bolt" true),
      "/companies/bolt".
    split; [lia|]. split; [vm_compute; tauto|]. split; reflexivity. }
  split; [exact Hlen|]. split; [exact Hshown|].
  by apply discovery_short_is_complete.
Defined.

(** X11. When the first rendering of the directory already shows the
    target number of distinct profile links, discovery does not scroll:
    it returns exactly [target_count] of the URLs of that rendering,
    whatever later renderings would show. *)
Theorem discovery_without_scrolling
  (order : Discovery.set_order) (page : nat -> Dom.document)
  (target_count : nat) :
  target_count <= size (Shown.first_page_links page) ->
  Discovery.scroll_and_extract_links order page target_count
  = take target_count (Discovery.to_list order (Shown.first_page_links page))
  /\ length (Discovery.scroll_and_extract_links order page target_count)
     = target_count.
Proof.
  intros Hsize. unfold Discovery.scroll_and_extract_links.
  assert (Heq : take target_count
                  (Discovery.to_list order
                     (Discovery.scroll_loop page target_count 150 0 ∅))
                = take target_count
                    (Discovery.to_list order (Shown.first_page_links page))).
  { destruct target_count as [|t]; [done|].
    unfold Shown.first_page_links in *.
    rewrite (scroll_loop_step page (S t) 149 0 ∅), size_empty.
    cbv zeta.
    replace ((0 <? S t) && (0 <? 150)) with true by reflexivity.
    destruct (Nat.leb_spec (S t)
                (size (Discovery.add_links
                         (Dom.locator (page 0) Discovery.link_selector) ∅)));
      [done|lia]. }
  split; [exact Heq|].
  rewrite Heq, length_take, to_list_length. lia.
Qed.

Lemma discovery_without_scrolling_witness :
  2 <= size (Shown.first_page_links Samples.directory)
  /\ length (Discovery.scroll_and_extract_links Samples.listed
               Samples.directory 2) = 2.
Proof.
  assert (H : 2 <= size (Shown.first_page_links Samples.directory))
    by (vm_compute; lia).
  split; [exact H|].
  exact (proj2 (discovery_without_scrolling Samples.listed Samples.directory 2 H)).
Defined.

(** ** The batch loop *)

Section BatchMore.
Import Engine.
Variable context : render_client.

Lemma gather_raises {A B} (f : A -> py_result B) l u :
  In u l -> f u = Raised -> gather (map f l) = Raised.
Proof.
  induction l as [|a l IH]; [done|]. intros [->|Hu] Hf; simpl.
  - by rewrite Hf.
  - destruct (f a); [|done]. by rewrite IH.
Qed.

Lemma In_take_app {A} (l : list A) a b x :
  In x (take (a + b) l) -> In x (take a l) \/ In x (take b (drop a l)).
Proof. rewrite <- take_take_drop, in_app_iff. done. Qed.

(** One task that raises, in a batch from [j] on, stops the loop short
    of the end of those batches. *)
Lemma batch_loop_raising s batch_size urls u :
  0 < batch_size ->
  fst (scrape_company_details context u) = Raised ->
  forall m j rows events,
    In u (take (m * batch_size) (drop (j * batch_size) urls)) ->
    let r := batch_loop context s batch_size urls
               (map (fun k => k * batch_size) (seq j m)) rows events in
    status r = Aborted
    /\ length (results r)
       < length rows + length (take (m * batch_size) (drop (j * batch_size) urls)).
Proof.
  intros Hb Hu. induction m as [|m IH]; intros j rows events Hin; [done|].
  cbn [seq map batch_loop].
  replace (S m * batch_size) with (batch_size + m * batch_size) in * by lia.
  assert (Hpos : 0 < length (take (batch_size + m * batch_size)
                               (drop (j * batch_size) urls))).
  { destruct (take _ _); [done|simpl; lia]. }
  set (batch_urls := take batch_size (drop (j * batch_size) urls)).
  destruct (gather _) as [batch_data|] eqn:Hg; [|simpl; split; [done|lia]].
  destruct (gather_returned context batch_urls batch_data Hg)
    as (recs & -> & Hrecs).
  cbv beta iota zeta. rewrite not_none_Some, Nat.div_mul by lia.
  pose proof (Forall2_length _ _ _ Hrecs) as Hlen.
  apply In_take_app in Hin as [Hin|Hin].
  { by rewrite (gather_raises _ _ u Hin Hu) in Hg. }
  rewrite drop_drop in Hin.
  replace (j * batch_size + batch_size) with (S j * batch_size) in Hin by lia.
  assert (Hrest : 0 < length (take (m * batch_size)
                                (drop (S j * batch_size) urls))).
  { destruct (take _ _); [done|simpl; lia]. }
  assert (Hsplit :
    length (take (batch_size + m * batch_size) (drop (j * batch_size) urls))
    = length recs
      + length (take (m * batch_size) (drop (S j * batch_size) urls))).
  { rewrite <- take_take_drop, length_app, drop_drop. fold batch_urls.
    rewrite Hlen.
    by replace (j * batch_size + batch_size) with (S j * batch_size) by lia. }
  destruct (interim s j).
  - destruct (IH (S j) (rows ++ recs)
                (events ++ [ToCsv progress_csv (rows ++ recs) Written]) Hin)
      as [Hst Hlt].
    split; [exact Hst|]. rewrite length_app in Hlt. lia.
  - destruct (IH (S j) (rows ++ recs)
                (events ++ [ToCsv progress_csv (rows ++ recs) PermissionDenied;
                            Print warning]) Hin)
      as [Hst Hlt].
    split; [exact Hst|]. rewrite length_app in Hlt. lia.
  - simpl. split; [done|]. rewrite length_app. lia.
Qed.

(** A checkpoint write that fails with something else than a locked
    file, after batch number [k], stops the loop there. *)
Lemma batch_loop_sink_fault s batch_size urls k :
  0 < batch_size ->
  (forall u, In u urls -> page_opens context u) ->
  interim s k = SinkFault ->
  forall m j rows events,
    j <= k < j + m ->
    (forall i, j <= i < k -> interim s i <> SinkFault) ->
    let r := batch_loop context s batch_size urls
               (map (fun k => k * batch_size) (seq j m)) rows events in
    status r = Aborted
    /\ length (results r)
       = length rows
         + length (take ((k + 1 - j) * batch_size) (drop (j * batch_size) urls))
    /\ length (writes (log r)) = length (writes events) + (k + 1 - j).
Proof.
  intros Hb Hopen Hk. induction m as [|m IH]; intros j rows events Hj Hbefore;
    [lia|].
  cbn [seq map batch_loop].
  set (batch_urls := take batch_size (drop (j * batch_size) urls)).
  destruct (gather _) as [batch_data|] eqn:Hg.
  2:{ exfalso. revert Hg. apply gather_opens.
      intros u Hu. apply Hopen. eapply In_drop, In_take, Hu. }
  destruct (gather_returned context batch_urls batch_data Hg)
    as (recs & -> & Hrecs).
  cbv beta iota zeta. rewrite not_none_Some, Nat.div_mul by lia.
  pose proof (Forall2_length _ _ _ Hrecs) as Hlen. fold batch_urls in Hlen.
  destruct (decide (j = k)) as [->|Hne].
  - rewrite Hk. simpl. rewrite writes_app, !length_app. simpl.
    replace (k + 1 - k) with 1 by lia. rewrite Nat.mul_1_l.
    fold batch_urls. split; [done|]. split; lia.
  - assert (Hnext : forall first,
      length (writes first) = 1 ->
      let r := batch_loop context s batch_size urls
                 (map (fun k => k * batch_size) (seq (S j) m))
                 (rows ++ recs) (events ++ first) in
      status r = Aborted
      /\ length (results r)
         = length rows
           + length (take ((k + 1 - j) * batch_size)
                       (drop (j * batch_size) urls))
      /\ length (writes (log r)) = length (writes events) + (k + 1 - j)).
    { intros first Hfirst.
      destruct (IH (S j) (rows ++ recs) (events ++ first))
        as (Hst & Hres & Hwr); [lia|intros i Hi; apply Hbefore; lia|].
      split; [exact Hst|]. rewrite Hres, Hwr, writes_app, !length_app, Hfirst.
      split; [|lia].
      replace ((k + 1 - j) * batch_size)
        with (batch_size + (k + 1 - S j) * batch_size) by nia.
      rewrite <- (take_take_drop (drop (j * batch_size) urls)), length_app.
      fold batch_urls. rewrite drop_drop, Hlen.
      replace (j * batch_size + batch_size) with (S j * batch_size) by lia.
      lia. }
    destruct (interim s j) eqn:Hj'.
    + by apply Hnext.
    + by apply Hnext.
    + destruct (Hbefore j); [lia|done].
Qed.

End BatchMore.

(** X12. One URL whose page cannot be opened costs the whole run: the
    run is aborted, the result set is short of the URL list, and the
    only file written to is the progress file -- the final export is
    never attempted. *)
Theorem one_page_fault_aborts_run
  (context : Engine.render_client) (s : Engine.sink)
  (batch_size : nat) (today : string) (urls : list string) (u : string) :
  0 < batch_size ->
  In u urls ->
  fst (Engine.scrape_company_details context u) = Raised ->
  let r := Engine.process context s batch_size today urls in
  Engine.status r = Engine.Aborted
  /\ length (Engine.results r) < length urls
  /\ forall path rows,
       In (path, rows) (Engine.writes (Engine.log r)) ->
       path = "yc_scraping_progress.csv".
Proof.
  intros Hb Hin Hu r.
  assert (Hrun : Engine.status (Engine.batches context s batch_size urls)
                 = Engine.Aborted
                 /\ length (Engine.results
                              (Engine.batches context s batch_size urls))
                    < length urls).
  { unfold Engine.batches. destruct (Nat.eqb_spec batch_size 0); [lia|].
    rewrite range3_spec by done.
    destruct (batch_loop_raising context s batch_size urls u Hb Hu
                (Engine.ceil_div (length urls) batch_size) 0 [] []) as [H1 H2].
    - simpl. by rewrite take_ge by (by apply ceil_div_covers).
    - split; [exact H1|]. simpl in H2.
      by rewrite take_ge in H2 by (by apply ceil_div_covers). }
  destruct Hrun as [Hst Hlen].
  assert (Hr : r = Engine.batches context s batch_size urls).
  { subst r. unfold Engine.process, Engine.final_export. by rewrite Hst. }
  rewrite Hr. split; [exact Hst|]. split; [exact Hlen|].
  destruct (batches_general context s batch_size urls) as (k & _ & _ & Hwr & _).
  rewrite Hwr. intros path rows (i & [= <- _] & _)%in_map_iff. reflexivity.
Qed.

Lemma one_page_fault_aborts_run_witness :
  0 < 2
  /\ In "c" ["a"; "b"; "c"]
  /\ fst (Engine.scrape_company_details Samples.crashing "c") = Raised
  /\ Engine.status
       (Engine.process Samples.crashing Samples.writable 2 "20240101"
          ["a"; "b"; "c"]) = Engine.Aborted.
Proof.
  split; [lia|]. split; [simpl; tauto|]. split; [reflexivity|].
  refine (proj1 (one_page_fault_aborts_run Samples.crashing Samples.writable 2
                   "20240101" ["a"; "b"; "c"] "c" _ _ _));
    [lia | simpl; tauto | reflexivity].
Defined.

(** X13. A checkpoint write that fails with anything but a locked file
    ends the run after that batch: when every page opens and the write
    after batch number [k] is the first to fail so, the run is aborted
    with the rows of the first [k + 1] batches, after [k + 1] writes
    and without final export. *)
Theorem other_sink_fault_aborts_run
  (context : Engine.render_client) (s : Engine.sink)
  (batch_size : nat) (today : string) (urls : list string) (k : nat) :
  0 < batch_size ->
  (forall u, In u urls -> Engine.page_opens context u) ->
  k < Engine.ceil_div (length urls) batch_size ->
  (forall i, i < k -> Engine.interim s i <> Engine.SinkFault) ->
  Engine.interim s k = Engine.SinkFault ->
  let r := Engine.process context s batch_size today urls in
  Engine.status r = Engine.Aborted
  /\ length (Engine.results r) = min ((k + 1) * batch_size) (length urls)
  /\ length (Engine.writes (Engine.log r)) = k + 1.
Proof.
  intros Hb Hopen Hk Hbefore Hfault r.
  assert (Hrun :
    let b := Engine.batches context s batch_size urls in
    Engine.status b = Engine.Aborted
    /\ length (Engine.results b) = min ((k + 1) * batch_size) (length urls)
    /\ length (Engine.writes (Engine.log b)) = k + 1).
  { unfold Engine.batches. destruct (Nat.eqb_spec batch_size 0); [lia|].
    rewrite range3_spec by done.
    destruct (batch_loop_sink_fault context s batch_size urls k Hb Hopen Hfault
                (Engine.ceil_div (length urls) batch_size) 0 [] [])
      as (H1 & H2 & H3); [lia|intros i Hi; apply Hbefore; lia|].
    split; [exact H1|]. rewrite H2, H3. simpl.
    rewrite length_take, Nat.sub_0_r. done. }
  destruct Hrun as (Hst & Hres & Hwr).
  assert (Hr : r = Engine.batches context s batch_size urls).
  { subst r. unfold Engine.process, Engine.final_export. by rewrite Hst. }
  by rewrite Hr.
Qed.

Lemma other_sink_fault_aborts_run_witness :
  0 < 2
  /\ 0 < Engine.ceil_div (length ["a"; "b"; "c"]) 2
  /\ Engine.interim Samples.full_disk 0 = Engine.SinkFault
  /\ length (Engine.results
               (Engine.process Samples.flaky Samples.full_disk 2 "20240101"
                  ["a"; "b"; "c"])) = 2.
Proof.
  split; [lia|]. split; [vm_compute; lia|]. split; [reflexivity|].
  refine (proj1 (proj2 (other_sink_fault_aborts_run Samples.flaky
                          Samples.full_disk 2 "20240101" ["a"; "b"; "c"] 0
                          _ _ _ _ _))).
  - lia.
  - refine (proj1 (flaky_no_fatal_fault Samples.writable _ _)).
    intros i. discriminate.
  - vm_compute; lia.
  - intros i Hi. lia.
  - reflexivity.
Defined.

(** X14. In a run whose batch loop reaches its end over at least one
    URL, the last checkpoint holds the very rows of the final export, so
    the progress file ends up a copy of the dated file; the export is
    the last thing the run does. *)
Theorem last_checkpoint_is_final_export
  (context : Engine.render_client) (s : Engine.sink)
  (batch_size : nat) (today : string) (urls : list string) :
  Engine.status (Engine.batches context s batch_size urls) = Engine.Completed ->
  urls <> [] ->
  let b := Engine.batches context s batch_size urls in
  let r := Engine.process context s batch_size today urls in
  last (Engine.writes (Engine.log b))
  = Some ("yc_scraping_progress.csv", Engine.results r)
  /\ last (Engine.log r)
     = Some (Engine.ToCsv ("yc_scraping_" +:+ today +:+ ".csv")
               (Engine.results r) (Engine.final s)).
Proof.
  intros Hdone Hne b r.
  assert (Hr : Engine.results r = Engine.results b)
    by apply final_export_results.
  pose proof (batches_rows context s batch_size urls Hdone) as Hrows.
  pose proof (Forall2_length _ _ _ Hrows) as Hlen. fold b in Hlen.
  destruct (batches_general context s batch_size urls)
    as (k & _ & _ & Hwr & Hst). fold b in Hwr, Hst.
  destruct (Hst Hdone) as [-> Hb]. split.
  - rewrite Hr, Hwr.
    pose proof (ceil_div_covers (length urls) batch_size Hb) as Hcov.
    destruct (Engine.ceil_div (length urls) batch_size) as [|k] eqn:Hk.
    { destruct urls; [done|simpl in Hcov; lia]. }
    rewrite seq_S, map_app. cbn [map]. rewrite last_snoc. do 2 f_equal.
    apply take_ge. lia.
  - subst r b. unfold Engine.process, Engine.final_export.
    rewrite Hdone. simpl. apply last_snoc.
Qed.

Lemma last_checkpoint_is_final_export_witness :
  Engine.status (Engine.batches Samples.flaky Samples.locked 2 ["a"; "b"; "c"])
  = Engine.Completed
  /\ ["a"; "b"; "c"] <> []
  /\ last (Engine.writes
             (Engine.log
                (Engine.batches Samples.flaky Samples.locked 2 ["a"; "b"; "c"])))
     = Some ("yc_scraping_progress.csv",
             Engine.results
               (Engine.process Samples.flaky Samples.locked 2 "20240101"
                  ["a"; "b"; "c"])).
Proof.
  split; [reflexivity|]. split; [discriminate|].
  refine (proj1 (last_checkpoint_is_final_export Samples.flaky Samples.locked
                   2 "20240101" ["a"; "b"; "c"] _ _));
    [reflexivity|discriminate].
Defined.

(** X15. With no URL to process the run gathers nothing and writes no
    checkpoint; its one action is the final export of an empty table. *)
Theorem empty_run
  (context : Engine.render_client) (s : Engine.sink)
  (batch_size : nat) (today : string) :
  0 < batch_size ->
  let r := Engine.process context s batch_size today [] in
  Engine.results r = []
  /\ Engine.log r
     = [Engine.ToCsv ("yc_scraping_" +:+ today +:+ ".csv") [] (Engine.final s)]
  /\ (Engine.status r = Engine.Completed
      <-> Engine.final s = Engine.Written).
Proof.
  intros Hb. destruct batch_size as [|n]; [lia|].
  cbv zeta. unfold Engine.process, Engine.batches, Engine.final_export. simpl.
  split; [done|]. split; [done|]. by destruct (Engine.final s).
Qed.

Lemma empty_run_witness :
  0 < Engine.BATCH_SIZE
  /\ Engine.log
       (Engine.process Samples.unreachable Samples.writable Engine.BATCH_SIZE
          "20240101" [])
     = [Engine.ToCsv "yc_scraping_20240101.csv" [] Engine.Written].
Proof.
  assert (H : 0 < Engine.BATCH_SIZE) by (unfold Engine.BATCH_SIZE; lia).
  split; [exact H|].
  exact (proj1 (proj2 (empty_run Samples.unreachable Samples.writable
                         Engine.BATCH_SIZE "20240101" H))).
Defined.

(** ** The whole program *)

(** X16. Whatever the site and the file system do, [main] ends with at
    most [TARGET_COUNT] = 500 rows and attempts at most eleven writes:
    ten checkpoints and the export. *)
Theorem main_is_bounded
  (order : Discovery.set_order) (page : nat -> Dom.document)
  (context : Engine.render_client) (s : Engine.sink) (today : string) :
  let r := Engine.main order page context s today in
  length (Engine.results r) <= 500
  /\ length (Engine.writes (Engine.log r)) <= 11.
Proof.
  intros r. subst r. unfold Engine.main, Engine.process.
  set (urls := Discovery.scroll_and_extract_links order page
                 Discovery.TARGET_COUNT).
  assert (Hn : length urls <= 500).
  { subst urls. unfold Discovery.scroll_and_extract_links.
    rewrite length_take. unfold Discovery.TARGET_COUNT. lia. }
  rewrite final_export_results.
  destruct (batches_general context s Engine.BATCH_SIZE urls)
    as (k & Hk & Hres & Hwr & _).
  set (b := Engine.batches context s Engine.BATCH_SIZE urls) in *.
  assert (Hk10 : k <= 10).
  { etrans; [exact Hk|]. apply ceil_div_least; unfold Engine.BATCH_SIZE; lia. }
  split.
  - rewrite <- (Forall2_length _ _ _ Hres), length_take. lia.
  - assert (Hw : length (Engine.writes (Engine.log b)) = k)
      by (by rewrite Hwr, length_map, length_seq).
    unfold Engine.final_export. destruct (Engine.status b); [|lia].
    simpl. rewrite writes_app, length_app, Hw. simpl. lia.
Qed.

(** ** A batch under the semaphore: progress *)

Section ProgressFacts.
Import Engine Limiter Progress.

Lemma shape_acquire_first tr n :
  In tr shapes -> tr !! n = Some Acquire -> n = 0.
Proof.
  intros H Hn. unfold shapes in H. simpl in H.
  destruct H as [<-|[<-|[<-|[<-|[]]]]];
    do 7 (destruct n as [|n]; [done || discriminate Hn|]);
    discriminate Hn.
Qed.

Lemma sum_over_member f ts i t :
  ts !! i = Some t -> f t <= sum_over f ts.
Proof.
  revert i. induction ts as [|a ts IH]; intros [|i] H; try done; simpl in *.
  - injection H as ->. lia.
  - specialize (IH i H). lia.
Qed.

Lemma holder_or_none ts :
  (exists i t, ts !! i = Some t /\ 0 < holding t) \/ sum_over holding ts = 0.
Proof.
  induction ts as [|a ts [(i & t & Hi & Ht)|IH]].
  - by right.
  - left. by exists (S i), t.
  - destruct (holding a) as [|h] eqn:Ha.
    + right. simpl. lia.
    + left. exists 0, a. split; [done|lia].
Qed.

(** A task that is not at an [Acquire] can always go on. *)
Lemma exec_enabled s i t e :
  tasks s !! i = Some t ->
  program t !! pc t = Some e ->
  (e = Acquire -> 0 < permits s) ->
  exists s', exec s i = Some s'.
Proof.
  intros Ht He Hperm. unfold exec. rewrite Ht, He.
  destruct e; simpl; try by eexists.
  destruct (permits s); [by specialize (Hperm eq_refl); lia|by eexists].
Qed.

End ProgressFacts.

(** X17. The semaphore cannot deadlock a batch: in every state the
    batch can reach under a positive limit, as long as some task has
    events left, some task can take a step. *)
Theorem batch_never_deadlocks
  (limit : nat) (context : Engine.render_client) (urls : list string)
  (s : Limiter.state) :
  0 < limit ->
  Limiter.reachable limit context urls s ->
  (exists t, In t (Limiter.tasks s)
             /\ Limiter.pc t < length (Limiter.program t)) ->
  exists s', Limiter.step s s'.
Proof.
  intros Hlimit Hinv%invariant_reachable (t & Ht & Hpc).
  pose proof (invariant_programs _ _ _ _ Hinv) as Hshapes.
  destruct Hinv as (_ & Hbound & Hsum). unfold Limiter.total in Hsum.
  assert (Hfacts : forall i t,
    Limiter.tasks s !! i = Some t ->
    In (Limiter.program t) Limiter.shapes
    /\ Limiter.holding t = Limiter.inside t).
  { intros i [tr n] Hi. apply list_elem_of_lookup_2 in Hi.
    eapply Forall_forall in Hshapes, Hbound; [|exact Hi..]. simpl in *.
    split; [done|]. by apply shape_holding. }
  destruct (holder_or_none (Limiter.tasks s)) as [(i & t' & Hi & Hhold)|Hnone].
  - destruct (Hfacts i t' Hi) as [Hshape Hin]. rewrite Hin in Hhold.
    unfold Limiter.inside in Hhold.
    destruct (Nat.ltb_spec 0 (Limiter.pc t')); [|simpl in Hhold; lia].
    destruct (Nat.ltb_spec (Limiter.pc t') (length (Limiter.program t')));
      [|simpl in Hhold; lia].
    destruct (lookup_lt_is_Some_2 (Limiter.program t') (Limiter.pc t'))
      as [e He]; [done|].
    destruct (exec_enabled s i t' e Hi He) as [s' Hs'].
    { intros ->. apply shape_acquire_first in He; [lia|done]. }
    exists s'. by exists i.
  - apply list_elem_of_In, list_elem_of_lookup in Ht as [i Hi].
    destruct (Hfacts i t Hi) as [Hshape Hin].
    pose proof (sum_over_member Limiter.holding _ _ _ Hi) as Hle.
    assert (Hzero : Limiter.inside t = 0) by lia.
    unfold Limiter.inside in Hzero.
    destruct (Nat.ltb_spec 0 (Limiter.pc t)) as [Hpos|Hpos].
    { destruct (Nat.ltb_spec (Limiter.pc t) (length (Limiter.program t)));
        [simpl in Hzero; lia|lia]. }
    assert (Limiter.pc t = 0) as Hpc0 by lia.
    destruct (shape_ends _ Hshape) as (Hhead & _).
    assert (He : Limiter.program t !! Limiter.pc t = Some Engine.Acquire).
    { rewrite Hpc0. by destruct (Limiter.program t). }
    destruct (exec_enabled s i t Engine.Acquire Hi He) as [s' Hs']; [intros _; lia|].
    exists s'. by exists i.
Qed.

Lemma batch_never_deadlocks_witness :
  exists s,
    Limiter.run (Limiter.start 1 Samples.flaky ["a"; "b"]) [0; 0] = Some s
    /\ Limiter.exec s 1 = None
    /\ exists s', Limiter.step s s'.
Proof.
  eexists. split; [by vm_compute|]. split; [by vm_compute|].
  eapply (batch_never_deadlocks 1 Samples.flaky ["a"; "b"]); [lia| |].
  - apply (run_reachable _ _ _ [0; 0]). by vm_compute.
  - eexists. split; [left; reflexivity|]. vm_compute. lia.
Defined.

(** X18. When every task of a batch has finished, all permits are back
    in the semaphore: the next batch starts with the full limit. *)
Theorem permits_return_after_batch
  (limit : nat) (context : Engine.render_client) (urls : list string)
  (s : Limiter.state) :
  Limiter.reachable limit context urls s ->
  Forall Progress.finished (Limiter.tasks s) ->
  Limiter.permits s = limit.
Proof.
  intros Hinv%invariant_reachable Hdone.
  pose proof (invariant_programs _ _ _ _ Hinv) as Hshapes.
  destruct Hinv as (_ & _ & Hsum). unfold Limiter.total in Hsum.
  assert (Hzero : Limiter.sum_over Limiter.holding (Limiter.tasks s) = 0);
    [|lia].
  clear Hsum.
  induction (Limiter.tasks s) as [|[tr n] ts IH]; [done|].
  inversion_clear Hdone as [|? ? Hfin Hrest].
  inversion_clear Hshapes as [|? ? Hshape Hshapes'].
  unfold Progress.finished in Hfin. simpl in *.
  destruct (shape_holding tr n Hshape) as [Hhold _]; [lia|].
  rewrite Hhold, IH by done. unfold Limiter.inside. simpl.
  destruct (Nat.ltb_spec n (length tr)); [lia|]. by rewrite andb_false_r.
Qed.

Lemma permits_return_after_batch_witness :
  exists s,
    Limiter.run (Limiter.start 3 Samples.flaky ["a"]) [0; 0; 0; 0] = Some s
    /\ Forall Progress.finished (Limiter.tasks s)
    /\ Limiter.permits s = 3.
Proof.
  eexists. split; [by vm_compute|].
  assert (Hfin : forall s,
    Limiter.run (Limiter.start 3 Samples.flaky ["a"]) [0; 0; 0; 0] = Some s ->
    Forall Progress.finished (Limiter.tasks s)).
  { intros s [= <-]. repeat constructor. }
  split; [apply Hfin; by vm_compute|].
  apply (permits_return_after_batch 3 Samples.flaky ["a"]).
  - apply (run_reachable _ _ _ [0; 0; 0; 0]). by vm_compute.
  - apply Hfin. by vm_compute.
Defined.
